(** * OpenAPI 3 generation and the security DSL of goa-plugins

    A shallow embedding of the [openapi3] generator ([NewV3], [info],
    [servers], [paths], [operation], [paramsFromExpr], [paramFor],
    [openapiFiles], [Generate], [toJSON], [toYAML]) and of the security DSL
    ([BasicAuthSecurity], [APIKeySecurity], [OAuth2Security], [JWTSecurity],
    [securitySchemeRedefined], the attribute tags), followed by the
    properties of the specification that concern them.

    Go values are modelled as follows: a string is a [string]; a pointer that
    may be nil is an [option]; a slice whose nil-ness the code inspects is an
    [option (list _)], any other slice a [list]; a [map[string]T] is a
    [gmap string T]; a struct is a record. *)

From Stdlib Require Import Ascii.
From stdpp Require Import gmap strings list.

(** ** Design expressions (package [expr] of goa) *)

(** The data types of attributes. The generator looks at a type only to find
    out whether it is an array, so the fields of an object are left out. *)
Inductive DataType : Type :=
| Primitive (kind : string)
| Array (elem : DataType)
| Map (key elem : DataType)
| Object
| UserType (name : string) (underlying : DataType).

Record ContactExpr := {
  contact_Name : string;
  contact_URL : string;
  contact_Email : string }.

Record LicenseExpr := {
  license_Name : string;
  license_URL : string }.

Record HostExpr := {
  host_Description : string;
  host_URIs : list string }.

Record ServerExpr := {
  server_Hosts : list HostExpr }.

(** [Meta] maps a key to its values; the entries are kept in the order in
    which the DSL added them. *)
Record AttributeExpr := {
  attr_Type : DataType;
  attr_Description : string;
  attr_Meta : list (string * list string) }.

Record NamedAttributeExpr := {
  nat_Name : string;
  nat_Attribute : AttributeExpr }.

(** A mapped attribute: the fields of its object type in declaration order,
    the names its validation requires, and the map from attribute names to
    HTTP element names. *)
Record MappedAttributeExpr := {
  ma_Object : list NamedAttributeExpr;
  ma_Required : list string;
  ma_nameMap : gmap string string }.

Record MethodExpr := {
  method_Name : string;
  method_Description : string }.

(** [route_Endpoint] is the back-reference of a route to its endpoint; the
    generator reads the description of the endpoint's method through it. *)
Record RouteExpr := {
  route_Method : string;
  route_Path : string;
  route_Endpoint : MethodExpr }.

Record HTTPEndpointExpr := {
  ep_MethodExpr : MethodExpr;
  ep_Params : option MappedAttributeExpr;
  ep_Routes : list RouteExpr }.

Record HTTPServiceExpr := {
  svc_Name : string;
  svc_HTTPEndpoints : list HTTPEndpointExpr }.

Record HTTPExpr := {
  http_Services : list HTTPServiceExpr }.

Record APIExpr := {
  api_Title : string;
  api_Description : string;
  api_TermsOfService : string;
  api_Version : string;
  api_Contact : option ContactExpr;
  api_License : option LicenseExpr;
  api_Servers : option (list ServerExpr);
  api_HTTP : HTTPExpr }.

Record RootExpr := {
  root_API : APIExpr }.

(** [e.Name()] and [r.Endpoint.Description()] *)
Definition ep_Name (e : HTTPEndpointExpr) : string := method_Name (ep_MethodExpr e).

(** Modelled from the spec: [ElemName] and [IsRequired] of goa's mapped
    attributes are not part of the sources. The element name is the mapped
    name if there is one and the attribute name otherwise; an attribute is
    required when the validation lists its name. *)
Definition ElemName (ma : MappedAttributeExpr) (keyName : string) : string :=
  match ma_nameMap ma !! keyName with
  | Some n => n
  | None => keyName
  end.

Definition IsRequired (ma : MappedAttributeExpr) (attName : string) : bool :=
  existsb (String.eqb attName) (ma_Required ma).

(** Modelled from the spec: [IsArray] of goa is not part of the sources. A
    type is an array if it is one after unfolding user types. *)
Fixpoint IsArray (dt : DataType) : bool :=
  match dt with
  | Array _ => true
  | UserType _ u => IsArray u
  | _ => false
  end.

(** Modelled from the spec: [WalkMappedAttr] of goa's codegen package is not
    part of the sources. It calls the iterator on every attribute in
    declaration order, with the attribute name, the element name, the
    required flag and the attribute, and stops at the first error. The
    iterator is a closure; [S] is the state it captures. *)
Definition MappedAttributeWalker (S E : Type) : Type :=
  string → string → bool → AttributeExpr → S → S * option E.

Fixpoint walk_attrs {S E} (ma : MappedAttributeExpr) (it : MappedAttributeWalker S E)
    (o : list NamedAttributeExpr) (s : S) : S * option E :=
  match o with
  | [] => (s, None)
  | n :: o' =>
      match it (nat_Name n) (ElemName ma (nat_Name n)) (IsRequired ma (nat_Name n))
               (nat_Attribute n) s with
      | (s', None) => walk_attrs ma it o' s'
      | (s', Some err) => (s', Some err)
      end
  end.

Definition WalkMappedAttr {S E} (ma : MappedAttributeExpr)
    (it : MappedAttributeWalker S E) (s : S) : S * option E :=
  walk_attrs ma it (ma_Object ma) s.

(** ** The OpenAPI document (package [openapi3] of kin-openapi) *)

Record Contact := {
  Contact_Name : string;
  Contact_URL : string;
  Contact_Email : string }.

Record License := {
  License_Name : string;
  License_URL : string }.

Record Info := {
  Info_Title : string;
  Info_Description : string;
  Info_TermsOfService : string;
  Info_Contact : option Contact;
  Info_License : option License;
  Info_Version : string }.

Record Server := {
  Server_URL : string;
  Server_Description : string }.

Record Parameter_ := {
  Param_In : string;
  Param_Name : string;
  Param_Description : string;
  Param_Required : bool;
  Param_Explode : option bool }.

Record ParameterRef := {
  PRef_Ref : string;
  PRef_Value : Parameter_ }.

Record ResponseRef := {
  RRef_Ref : string }.

Record Operation := {
  Op_OperationID : string;
  Op_Description : string;
  Op_Parameters : list ParameterRef;
  Op_Responses : gmap string ResponseRef }.

(** The operation fields of a path item, one per HTTP verb. *)
Record PathItem := {
  Connect : option Operation;
  Delete : option Operation;
  Get : option Operation;
  Head : option Operation;
  Options : option Operation;
  Patch : option Operation;
  Post : option Operation;
  Put : option Operation;
  Trace : option Operation }.

Record Swagger := {
  OpenAPI : string;
  Swagger_Info : Info;
  Swagger_Servers : option (list Server);
  Paths : gmap string PathItem }.

(** [&openapi3.PathItem{}] *)
Definition emptyPathItem : PathItem :=
  {| Connect := None; Delete := None; Get := None; Head := None; Options := None;
     Patch := None; Post := None; Put := None; Trace := None |}.

(** [path.Get = operation] *)
Definition set_Get (path : PathItem) (op : Operation) : PathItem :=
  {| Connect := Connect path; Delete := Delete path; Get := Some op; Head := Head path;
     Options := Options path; Patch := Patch path; Post := Post path; Put := Put path;
     Trace := Trace path |}.

(** ** The generator *)

Definition contact (c : option ContactExpr) : option Contact :=
  match c with
  | Some c => Some {| Contact_Name := contact_Name c;
                      Contact_URL := contact_URL c;
                      Contact_Email := contact_Email c |}
  | None => None
  end.

Definition license (l : option LicenseExpr) : option License :=
  match l with
  | Some l => Some {| License_Name := license_Name l; License_URL := license_URL l |}
  | None => None
  end.

Definition info (api : APIExpr) : Info :=
  let version := "unversioned" in
  let version := if negb (String.eqb (api_Version api) "") then api_Version api else version in
  {| Info_Title := api_Title api;
     Info_Description := api_Description api;
     Info_TermsOfService := api_TermsOfService api;
     Info_Contact := contact (api_Contact api);
     Info_License := license (api_License api);
     Info_Version := version |}.

(** The three nested [range] loops of [servers], each appending to the
    slice built so far. *)
Definition servers_of_host (host : HostExpr) (servers : list Server) : list Server :=
  fold_left (fun servers uri =>
               servers ++ [ {| Server_URL := uri;
                               Server_Description := host_Description host |} ])
            (host_URIs host) servers.

Definition servers_of_server (server : ServerExpr) (servers : list Server) : list Server :=
  fold_left (fun servers host => servers_of_host host servers) (server_Hosts server) servers.

Definition servers (s : option (list ServerExpr)) : option (list Server) :=
  match s with
  | None => None
  | Some s => Some (fold_left (fun servers server => servers_of_server server servers) s [])
  end.

Definition paramFor (at_ : AttributeExpr) (name in_ : string) (required : bool) : ParameterRef :=
  let p := {| Param_In := in_;
              Param_Name := name;
              Param_Description := attr_Description at_;
              Param_Required := required;
              Param_Explode := None |} in
  let p := if IsArray (attr_Type at_)
           then {| Param_In := Param_In p; Param_Name := Param_Name p;
                   Param_Description := Param_Description p;
                   Param_Required := Param_Required p;
                   Param_Explode := Some true |}
           else p in
  {| PRef_Ref := ""; PRef_Value := p |}.

(** The loop over the wildcards in the iterator of [paramsFromExpr]: it
    starts from the pair [(in, required)] and stops at the first wildcard
    equal to [n]. *)
Fixpoint wildcard_loop (n : string) (wildcards : list string) (in_ : string) (required : bool)
    : string * bool :=
  match wildcards with
  | [] => (in_, required)
  | w :: ws => if String.eqb n w then ("path", true) else wildcard_loop n ws in_ required
  end.

(** ** What the generator takes from its environment *)

(** The document as an encoder receives it: the fields of the [Swagger]
    value, with the map of paths as the entries the encoder finds when it
    visits the map. What an encoder makes of them, and in which order it
    writes them, is the encoder's own. *)
Record Document := {
  doc_OpenAPI : string;
  doc_Info : Info;
  doc_Servers : option (list Server);
  doc_Paths : list (string * PathItem) }.

(** The functions and variables of goa and of the Go library that the
    sources use without defining them: [expr.ExtractHTTPWildcards],
    [codegen.Gendir], [filepath.Join], and what [json.Marshal] and
    [yaml.Marshal] make of a document, either the bytes ([inl]) or an error
    ([inr]). The generator is parametric in them. *)
Class External := {
  ExtractHTTPWildcards : string → list string;
  Gendir : string;
  filepath_Join : list string → string;
  json_encode : Document → string + string;
  yaml_encode : Document → string + string }.

Section Generator.

Context `{External}.

(** The iterator passed to [WalkMappedAttr]; it captures [res] and [i]. *)
Definition paramsWalker (wildcards : list string)
    : MappedAttributeWalker (list ParameterRef * nat) unit :=
  fun n pn required at_ '(res, i) =>
    let '(in_, required) := wildcard_loop n wildcards "query" required in
    let param := paramFor at_ pn in_ required in
    ((res ++ [param], S i), None).

Definition paramsFromExpr (params : option MappedAttributeExpr) (path : string)
    : list ParameterRef :=
  match params with
  | None => []
  | Some params =>
      let wildcards := ExtractHTTPWildcards path in
      fst (fst (WalkMappedAttr params (paramsWalker wildcards) ([], 0)))
  end.

Definition operation (s : HTTPServiceExpr) (e : HTTPEndpointExpr) (r : RouteExpr)
    : Operation :=
  let params := paramsFromExpr (ep_Params e) (route_Path r) in
  {| Op_OperationID := svc_Name s +:+ "#" +:+ ep_Name e;
     Op_Description := method_Description (route_Endpoint r);
     Op_Parameters := params;
     Op_Responses := ∅ |}.

(** The body of the innermost loop of [paths]. *)
Definition paths_route (service : HTTPServiceExpr) (endpoint : HTTPEndpointExpr)
    (route : RouteExpr) (paths : gmap string PathItem) : gmap string PathItem :=
  let path := match paths !! route_Path route with
              | Some path => path
              | None => emptyPathItem
              end in
  let path := set_Get path (operation service endpoint route) in
  <[route_Path route := path]> paths.

Definition paths_endpoint (service : HTTPServiceExpr) (endpoint : HTTPEndpointExpr)
    (paths : gmap string PathItem) : gmap string PathItem :=
  fold_left (fun paths route => paths_route service endpoint route paths)
            (ep_Routes endpoint) paths.

Definition paths_service (service : HTTPServiceExpr) (paths : gmap string PathItem)
    : gmap string PathItem :=
  fold_left (fun paths endpoint => paths_endpoint service endpoint paths)
            (svc_HTTPEndpoints service) paths.

Definition paths (r : RootExpr) : gmap string PathItem :=
  fold_left (fun paths service => paths_service service paths)
            (http_Services (api_HTTP (root_API r))) ∅.

(** The second result of [NewV3] is a Go [error]; [None] is nil. *)
Definition NewV3 (r : RootExpr) : Swagger * option string :=
  ({| OpenAPI := "3.0.0";
      Swagger_Info := info (root_API r);
      Swagger_Servers := servers (api_Servers (root_API r));
      Paths := paths r |}, None).

End Generator.

(** ** Serialization and files *)

(** A call either returns a value or panics with a message. *)
Inductive outcome (A : Type) : Type :=
| Returned (a : A)
| Panicked (msg : string).
Arguments Returned {A} a.
Arguments Panicked {A} msg.

(** Go leaves the order in which the entries of a map are visited to the
    runtime, and it may change from one run to the next: a run comes with
    the order [range] in which it visits the entries of each map. *)
Definition MapRange : Type := gmap string PathItem → list (string * PathItem).

(** A section template of goa's codegen: the functions its source may call,
    the source, and the data it is executed on. *)
Record SectionTemplate := {
  st_Name : string;
  st_FuncMap : list (string * (Swagger → outcome string));
  st_Source : string;
  st_Data : Swagger }.

Record File := {
  file_Path : string;
  file_SectionTemplates : list SectionTemplate }.

(** The roots handed to a plugin: design roots and roots of other kinds. *)
Inductive Root : Type :=
| ExprRoot (r : RootExpr)
| OtherRoot (name : string).

Section Serialization.

Context `{External}.
Variable range : MapRange.

(** What an encoder is given of a document: its fields, and the entries of
    the map of paths as the run visits them. *)
Definition document_of (d : Swagger) : Document :=
  {| doc_OpenAPI := OpenAPI d;
     doc_Info := Swagger_Info d;
     doc_Servers := Swagger_Servers d;
     doc_Paths := range (Paths d) |}.

Definition json_Marshal (d : Swagger) : string + string := json_encode (document_of d).
Definition yaml_Marshal (d : Swagger) : string + string := yaml_encode (document_of d).

Definition toJSON (d : Swagger) : outcome string :=
  match json_Marshal d with
  | inr err => Panicked ("openapi: " +:+ err)
  | inl b => Returned b
  end.

Definition toYAML (d : Swagger) : outcome string :=
  match yaml_Marshal d with
  | inr err => Panicked ("openapi: " +:+ err)
  | inl b => Returned b
  end.

Definition openapiFiles (r : RootExpr) : option File * option File * option string :=
  if length (http_Services (api_HTTP (root_API r))) =? 0 then (None, None, None)
  else
    let jsonPath := filepath_Join [Gendir; "http"; "openapi.json"] in
    let yamlPath := filepath_Join [Gendir; "http"; "openapi.yaml"] in
    match NewV3 r with
    | (_, Some err) => (None, None, Some err)
    | (spec, None) =>
        let jsonSection := {| st_Name := "openapi";
                              st_FuncMap := [("toJSON", toJSON)];
                              st_Source := "{{ toJSON .}}";
                              st_Data := spec |} in
        let yamlSection := {| st_Name := "openapi";
                              st_FuncMap := [("toYAML", toYAML)];
                              st_Source := "{{ toYAML .}}";
                              st_Data := spec |} in
        (Some {| file_Path := jsonPath; file_SectionTemplates := [jsonSection] |},
         Some {| file_Path := yamlPath; file_SectionTemplates := [yamlSection] |},
         None)
    end.

Fixpoint Generate_loop (roots : list Root) (files : list File)
    : list File * option string :=
  match roots with
  | [] => (files, None)
  | ExprRoot r :: roots' =>
      match openapiFiles r with
      | (_, _, Some err) => (files, Some err)
      | (Some jsonFile, Some yamlFile, None) =>
          Generate_loop roots' (files ++ [jsonFile; yamlFile])
      | (_, _, None) => Generate_loop roots' files
      end
  | OtherRoot _ :: roots' => Generate_loop roots' files
  end.

Definition Generate (genpkg : string) (roots : list Root) (files : list File)
    : list File * option string :=
  Generate_loop roots files.

End Serialization.

(** ** The security DSL *)

Inductive SchemeKind : Type :=
| OAuth2Kind | BasicAuthKind | APIKeyKind | JWTKind | NoKind.

Inductive FlowKind : Type :=
| AuthorizationCodeFlowKind | ImplicitFlowKind | PasswordFlowKind | ClientCredentialsFlowKind.

Record ScopeExpr := {
  scope_Name : string;
  scope_Description : string }.

Record FlowExpr := {
  flow_Kind : FlowKind;
  flow_AuthorizationURL : string;
  flow_TokenURL : string;
  flow_RefreshURL : string }.

Record SchemeExpr := {
  scheme_Kind : SchemeKind;
  SchemeName : string;
  scheme_Description : string;
  scheme_Scopes : list ScopeExpr;
  scheme_Flows : list FlowExpr }.

(** The expression a DSL function finds as the current one. *)
Inductive Expression : Type :=
| TopExpr
| CurrentAPI
| CurrentService (name : string)
| CurrentMethod (name : string)
| CurrentScheme
| CurrentSecurity.

(** An error recorded by the evaluation: that of [eval.IncompatibleDSL], or
    the format and the arguments given to [eval.ReportError]. *)
Inductive EvalError : Type :=
| IncompatibleDSLError
| ReportedError (format : string) (args : list string).

(** The state the DSL functions read and change: the registry of schemes
    [design.Root.Schemes], the errors recorded so far and the current
    expression of the evaluation. *)
Record Design := {
  Schemes : list SchemeExpr;
  Errors : list EvalError;
  Current : Expression }.

Definition ReportError (format : string) (args : list string) (st : Design) : Design :=
  {| Schemes := Schemes st;
     Errors := Errors st ++ [ReportedError format args];
     Current := Current st |}.

Definition IncompatibleDSL (st : Design) : Design :=
  {| Schemes := Schemes st;
     Errors := Errors st ++ [IncompatibleDSLError];
     Current := Current st |}.

Definition isTopExpr (e : Expression) : bool :=
  match e with TopExpr => true | _ => false end.

(** A DSL function given to a scheme: a Go closure that may change the
    scheme it is given and the design. *)
Definition SchemeDSL : Type := SchemeExpr → Design → SchemeExpr * Design.

(** Modelled from the spec: [eval.Execute] of goa is not part of the
    sources. It runs the function with the expression as the current one,
    restores the current expression, and is true when the run recorded no
    new error. *)
Definition Execute (fn : SchemeDSL) (def : SchemeExpr) (st : Design)
    : bool * SchemeExpr * Design :=
  let '(def', st') :=
    fn def {| Schemes := Schemes st; Errors := Errors st; Current := CurrentScheme |} in
  (length (Errors st') <=? length (Errors st), def',
   {| Schemes := Schemes st'; Errors := Errors st'; Current := Current st |}).

(** The loop of [securitySchemeRedefined] over the registry. *)
Fixpoint redefined_loop (name : string) (schemes : list SchemeExpr) (st : Design)
    : bool * Design :=
  match schemes with
  | [] => (false, st)
  | s :: schemes' =>
      if String.eqb (SchemeName s) name
      then (true, ReportError "cannot redefine security scheme with name %q" [name] st)
      else redefined_loop name schemes' st
  end.

Definition securitySchemeRedefined (name : string) (st : Design) : bool * Design :=
  redefined_loop name (Schemes st) st.

(** The body shared by the four functions that define a scheme; they differ
    in the kind they give to the scheme only. *)
Definition defineScheme (kind : SchemeKind) (name : string) (dsl : list SchemeDSL)
    (st : Design) : option SchemeExpr * Design :=
  if negb (isTopExpr (Current st)) then (None, IncompatibleDSL st)
  else
    let '(redefined, st) := securitySchemeRedefined name st in
    if redefined then (None, st)
    else
      let expr := {| scheme_Kind := kind; SchemeName := name; scheme_Description := "";
                     scheme_Scopes := []; scheme_Flows := [] |} in
      let append expr st :=
        (Some expr, {| Schemes := Schemes st ++ [expr];
                       Errors := Errors st;
                       Current := Current st |}) in
      match dsl with
      | [] => append expr st
      | fn :: _ =>
          let '(ok, expr, st) := Execute fn expr st in
          if negb ok then (None, st) else append expr st
      end.

Definition BasicAuthSecurity := defineScheme BasicAuthKind.
Definition APIKeySecurity := defineScheme APIKeyKind.
Definition OAuth2Security := defineScheme OAuth2Kind.
Definition JWTSecurity := defineScheme JWTKind.

(** *** The attributes that carry credentials *)

(** A DSL function given to an attribute. *)
Definition AttributeDSL : Type := AttributeExpr → AttributeExpr.

(** Modelled from the spec: [Metadata] and [Attribute] of goa's DSL are not
    part of the sources. [Metadata] adds the values to those the attribute
    has under the key; [Attribute] defines the attribute of the given name,
    type and description and runs the DSL function on it. *)
Fixpoint add_meta (name : string) (values : list string) (meta : list (string * list string))
    : list (string * list string) :=
  match meta with
  | [] => [(name, values)]
  | (k, vs) :: meta' =>
      if String.eqb k name then (k, vs ++ values) :: meta'
      else (k, vs) :: add_meta name values meta'
  end.

Definition Metadata (name : string) (values : list string) : AttributeDSL :=
  fun a => {| attr_Type := attr_Type a;
              attr_Description := attr_Description a;
              attr_Meta := add_meta name values (attr_Meta a) |}.

Definition Attribute (name : string) (type : DataType) (description : string)
    (fn : option AttributeDSL) : NamedAttributeExpr :=
  let a := {| attr_Type := type; attr_Description := description; attr_Meta := [] |} in
  {| nat_Name := name;
     nat_Attribute := match fn with Some fn => fn a | None => a end |}.

(** [useDSL]: the function [d] is run after the DSL function of the
    arguments, if there is one. *)
Definition useDSL (fn : option AttributeDSL) (d : AttributeDSL) : option AttributeDSL :=
  match fn with
  | Some ds => Some (fun a => d (ds a))
  | None => Some d
  end.

Definition Username (name : string) (type : DataType) (description : string)
    (fn : option AttributeDSL) : NamedAttributeExpr :=
  Attribute name type description (useDSL fn (Metadata "security:username" [])).

Definition Password (name : string) (type : DataType) (description : string)
    (fn : option AttributeDSL) : NamedAttributeExpr :=
  Attribute name type description (useDSL fn (Metadata "security:password" [])).

Definition APIKey (scheme name : string) (type : DataType) (description : string)
    (fn : option AttributeDSL) : NamedAttributeExpr :=
  Attribute name type description
    (useDSL fn (Metadata ("security:apikey:" +:+ scheme) [scheme])).

Definition AccessToken (name : string) (type : DataType) (description : string)
    (fn : option AttributeDSL) : NamedAttributeExpr :=
  Attribute name type description (useDSL fn (Metadata "security:accesstoken" [])).

Definition Token (name : string) (type : DataType) (description : string)
    (fn : option AttributeDSL) : NamedAttributeExpr :=
  Attribute name type description (useDSL fn (Metadata "security:token" [])).

(** An attribute carries a security role when one of the five functions
    above has tagged it. *)
Definition security_key (k : string) : bool :=
  String.eqb k "security:username" || String.eqb k "security:password"
  || String.prefix "security:apikey:" k
  || String.eqb k "security:accesstoken" || String.eqb k "security:token".

Definition security_role (a : AttributeExpr) : bool :=
  existsb (fun kv => security_key kv.1) (attr_Meta a).

(** ** A concrete environment *)

(** Modelled from the spec: [expr.ExtractHTTPWildcards] of goa is not part of
    the sources. The wildcards of a path template are the names of its
    segments delimited by braces: the words of letters, digits and
    underscores found between a slash followed by an opening brace, with an
    optional star, and the closing brace. The scan reads the path one
    character at a time. *)
Definition is_word (c : Ascii.ascii) : bool :=
  let n := Ascii.nat_of_ascii c in
  ((48 <=? n) && (n <=? 57)) || ((65 <=? n) && (n <=? 90))
  || ((97 <=? n) && (n <=? 122)) || (n =? 95).

Inductive scan_state : Type :=
| Idle | Slash | Brace | Star | Word (acc : string).

Definition scan_restart (c : Ascii.ascii) : scan_state :=
  if Ascii.eqb c "/"%char then Slash else Idle.

Definition scan_step (st : scan_state) (c : Ascii.ascii) : scan_state * list string :=
  match st with
  | Idle => (scan_restart c, [])
  | Slash => (if Ascii.eqb c "{"%char then Brace else scan_restart c, [])
  | Brace =>
      (if Ascii.eqb c "*"%char then Star
       else if is_word c then Word (String c "") else scan_restart c, [])
  | Star => (if is_word c then Word (String c "") else scan_restart c, [])
  | Word acc =>
      if is_word c then (Word (acc +:+ String c ""), [])
      else if Ascii.eqb c "}"%char then (Idle, [acc])
      else (scan_restart c, [])
  end.

Fixpoint scan (st : scan_state) (path : string) : list string :=
  match path with
  | EmptyString => []
  | String c path' => let '(st', ws) := scan_step st c in ws ++ scan st' path'
  end.

Definition HTTPWildcards (path : string) : list string := scan Idle path.

(** Two encoders to run the generator with: one writes the version of the
    format and the keys of the paths, the other fails on every document. *)
Definition keys_encode (doc : Document) : string + string :=
  inl (doc_OpenAPI doc +:+ " " +:+ String.concat "," (doc_Paths doc).*1).

Definition failing_encode (doc : Document) : string + string :=
  inr "unsupported value".

Definition goa : External :=
  {| ExtractHTTPWildcards := HTTPWildcards;
     Gendir := "gen";
     filepath_Join := String.concat "/";
     json_encode := keys_encode;
     yaml_encode := keys_encode |}.

Definition goa_failing : External :=
  {| ExtractHTTPWildcards := HTTPWildcards;
     Gendir := "gen";
     filepath_Join := String.concat "/";
     json_encode := failing_encode;
     yaml_encode := failing_encode |}.

(** An order in which a run may visit a map. *)
Definition range_up : MapRange := map_to_list.

(** ** Designs and vocabulary of the properties *)

(** An API that declares a version and one that declares none. *)
Definition root_versioned : RootExpr :=
  {| root_API := {| api_Title := "test api"; api_Description := "an api to test openapi3";
                    api_TermsOfService := "https://example.com/tos"; api_Version := "1.0";
                    api_Contact := None; api_License := None; api_Servers := None;
                    api_HTTP := {| http_Services := [] |} |} |}.

Definition root_unversioned : RootExpr :=
  {| root_API := {| api_Title := "test api"; api_Description := "an api to test openapi3";
                    api_TermsOfService := "https://example.com/tos"; api_Version := "";
                    api_Contact := None; api_License := None; api_Servers := None;
                    api_HTTP := {| http_Services := [] |} |} |}.

(** The pairs of a host and one of its URI templates, in declaration order:
    servers first, then the hosts of a server, then the URIs of a host. *)
Definition host_uri_pairs (s : list ServerExpr) : list (HostExpr * string) :=
  server ← s; host ← server_Hosts server; uri ← host_URIs host; [(host, uri)].

Definition server_entry (p : HostExpr * string) : Server :=
  {| Server_URL := p.2; Server_Description := host_Description p.1 |}.

Definition servers_ex : list ServerExpr :=
  [ {| server_Hosts := [ {| host_Description := "dev";
                            host_URIs := ["http://localhost:80"; "grpc://localhost:81"] |};
                         {| host_Description := "empty"; host_URIs := [] |} ] |};
    {| server_Hosts := [ {| host_Description := "prod";
                            host_URIs := ["https://goa.design"] |} ] |} ].

(** The parameter of one attribute, in the words of the specification: a
    path parameter that is required if the name of the attribute is a
    wildcard of the path, a query parameter with the required flag of the
    attribute otherwise. *)
Definition classify (wildcards : list string) (ma : MappedAttributeExpr)
    (a : NamedAttributeExpr) : ParameterRef :=
  if decide (nat_Name a ∈ wildcards)
  then paramFor (nat_Attribute a) (ElemName ma (nat_Name a)) "path" true
  else paramFor (nat_Attribute a) (ElemName ma (nat_Name a)) "query"
                (IsRequired ma (nat_Name a)).

(** The payload of the method [add] of the service [calc]: [x] is required,
    [y] is optional. *)
Definition Int : DataType := Primitive "int".
Definition String_ : DataType := Primitive "string".

Definition add_params : MappedAttributeExpr :=
  {| ma_Object := [Attribute "x" Int "Left operand" None;
                   Attribute "y" Int "Right operand" None];
     ma_Required := ["x"];
     ma_nameMap := ∅ |}.

Definition add_method : MethodExpr :=
  {| method_Name := "add"; method_Description := "Add two operands" |}.

Definition add_route : RouteExpr :=
  {| route_Method := "GET"; route_Path := "/add/{x}"; route_Endpoint := add_method |}.

Definition add_endpoint : HTTPEndpointExpr :=
  {| ep_MethodExpr := add_method; ep_Params := Some add_params; ep_Routes := [add_route] |}.

Definition calc_service : HTTPServiceExpr :=
  {| svc_Name := "calc"; svc_HTTPEndpoints := [add_endpoint] |}.

Definition query_param (name description : string) (required : bool) : ParameterRef :=
  {| PRef_Ref := "";
     PRef_Value := {| Param_In := "query"; Param_Name := name;
                      Param_Description := description; Param_Required := required;
                      Param_Explode := None |} |}.

Definition path_param (name description : string) : ParameterRef :=
  {| PRef_Ref := "";
     PRef_Value := {| Param_In := "path"; Param_Name := name;
                      Param_Description := description; Param_Required := true;
                      Param_Explode := None |} |}.

(** The payload of a method secured by an API key and by basic
    authentication. *)
Definition secured_params : MappedAttributeExpr :=
  {| ma_Object := [APIKey "api_key" "key" String_ "API key used to perform authorization" None;
                   Username "user" String_ "Name of the user" None;
                   Attribute "data" String_ "Data to be written" None];
     ma_Required := ["key"; "data"];
     ma_nameMap := ∅ |}.

(** The attribute set without the tags of the security DSL. *)
Definition untagged_attr (a : NamedAttributeExpr) : NamedAttributeExpr :=
  {| nat_Name := nat_Name a;
     nat_Attribute := {| attr_Type := attr_Type (nat_Attribute a);
                         attr_Description := attr_Description (nat_Attribute a);
                         attr_Meta := [] |} |}.

Definition untagged (ma : MappedAttributeExpr) : MappedAttributeExpr :=
  {| ma_Object := untagged_attr <$> ma_Object ma;
     ma_Required := ma_Required ma;
     ma_nameMap := ma_nameMap ma |}.

(** The routes of a design in the order in which [paths] visits them, each
    with its service and its endpoint. *)
Definition all_routes (r : RootExpr)
    : list (HTTPServiceExpr * HTTPEndpointExpr * RouteExpr) :=
  service ← http_Services (api_HTTP (root_API r));
  endpoint ← svc_HTTPEndpoints service;
  route ← ep_Routes endpoint;
  [(service, endpoint, route)].

(** A route with another HTTP verb. *)
Definition with_verb (verb : string) (route : RouteExpr) : RouteExpr :=
  {| route_Method := verb; route_Path := route_Path route;
     route_Endpoint := route_Endpoint route |}.

(** A design whose routes all have their verb replaced by the one [f]
    chooses. *)
Definition with_verbs_endpoint (f : RouteExpr → string) (e : HTTPEndpointExpr)
    : HTTPEndpointExpr :=
  {| ep_MethodExpr := ep_MethodExpr e;
     ep_Params := ep_Params e;
     ep_Routes := (λ route, with_verb (f route) route) <$> ep_Routes e |}.

Definition with_verbs_service (f : RouteExpr → string) (s : HTTPServiceExpr)
    : HTTPServiceExpr :=
  {| svc_Name := svc_Name s;
     svc_HTTPEndpoints := with_verbs_endpoint f <$> svc_HTTPEndpoints s |}.

Definition with_verbs (f : RouteExpr → string) (r : RootExpr) : RootExpr :=
  let api := root_API r in
  {| root_API :=
       {| api_Title := api_Title api; api_Description := api_Description api;
          api_TermsOfService := api_TermsOfService api; api_Version := api_Version api;
          api_Contact := api_Contact api; api_License := api_License api;
          api_Servers := api_Servers api;
          api_HTTP := {| http_Services :=
                           with_verbs_service f <$> http_Services (api_HTTP api) |} |} |}.

(** Two routes of different methods with the same path and the same verb. *)
Definition conflicting (r : RootExpr) : Prop :=
  ∃ i j s1 e1 r1 s2 e2 r2,
    all_routes r !! i = Some (s1, e1, r1) ∧ all_routes r !! j = Some (s2, e2, r2) ∧
    (svc_Name s1, ep_Name e1) ≠ (svc_Name s2, ep_Name e2) ∧
    route_Path r1 = route_Path r2 ∧ route_Method r1 = route_Method r2.

(** One round of the innermost loop of [paths], on a route with its service
    and its endpoint. *)
Definition route_step `{External} (paths : gmap string PathItem)
    (t : HTTPServiceExpr * HTTPEndpointExpr * RouteExpr) : gmap string PathItem :=
  paths_route t.1.1 t.1.2 t.2 paths.

(** Every path item built by [paths] has an operation for GET and for no
    other verb. *)
Definition get_only (m : gmap string PathItem) : Prop :=
  ∀ p item, m !! p = Some item → ∃ op, item = set_Get emptyPathItem op.

(** Two designs: in the first, two methods are both routed at [GET /same];
    in the second, a method is routed at [GET /x] and another at
    [POST /x]. *)
Definition endpoint_at (name verb path : string) : HTTPEndpointExpr :=
  let method := {| method_Name := name; method_Description := name +:+ " method" |} in
  {| ep_MethodExpr := method;
     ep_Params := None;
     ep_Routes := [ {| route_Method := verb; route_Path := path;
                       route_Endpoint := method |} ] |}.

Definition root_of (services : list HTTPServiceExpr) : RootExpr :=
  {| root_API := {| api_Title := "test api"; api_Description := "";
                    api_TermsOfService := ""; api_Version := "";
                    api_Contact := None; api_License := None; api_Servers := None;
                    api_HTTP := {| http_Services := services |} |} |}.

Definition same_service : HTTPServiceExpr :=
  {| svc_Name := "svc";
     svc_HTTPEndpoints := [endpoint_at "first" "GET" "/same";
                           endpoint_at "second" "GET" "/same"] |}.

Definition same_root : RootExpr := root_of [same_service].

Definition reader : HTTPEndpointExpr := endpoint_at "reader" "GET" "/x".
Definition writer : HTTPEndpointExpr := endpoint_at "writer" "POST" "/x".

Definition verbs_service : HTTPServiceExpr :=
  {| svc_Name := "svc"; svc_HTTPEndpoints := [reader; writer] |}.

Definition verbs_root : RootExpr := root_of [verbs_service].

Definition get_x : RouteExpr :=
  {| route_Method := "GET"; route_Path := "/x"; route_Endpoint := ep_MethodExpr reader |}.
Definition post_x : RouteExpr :=
  {| route_Method := "POST"; route_Path := "/x"; route_Endpoint := ep_MethodExpr writer |}.

(** A design with one HTTP service that has no endpoint, hence no route. *)
Definition idle_root : RootExpr :=
  root_of [ {| svc_Name := "svc"; svc_HTTPEndpoints := [] |} ].

(** The error recorded for a scheme name that is registered already, and a
    registry before and after the definition of a scheme [basic]. *)
Definition redefinition_error (name : string) : EvalError :=
  ReportedError "cannot redefine security scheme with name %q" [name].

Definition basic_scheme : SchemeExpr :=
  {| scheme_Kind := BasicAuthKind; SchemeName := "basic"; scheme_Description := "";
     scheme_Scopes := []; scheme_Flows := [] |}.

Definition empty_design : Design :=
  {| Schemes := []; Errors := []; Current := TopExpr |}.

Definition basic_design : Design :=
  {| Schemes := [basic_scheme]; Errors := []; Current := TopExpr |}.

(** ** The rest of the security DSL *)

(** The expression a DSL function of a scheme or of a requirement finds as
    the current one, with its value: a scheme, a security requirement, or an
    expression of another type. *)
Record SecurityExpr := {
  sec_Schemes : list SchemeExpr;
  sec_Scopes : list string }.

Inductive Evaluated : Type :=
| EvScheme (e : SchemeExpr)
| EvSecurity (e : SecurityExpr)
| EvOther.

(** A DSL function called inside the DSL of a scheme or of a requirement:
    it may change the current expression and the design. *)
Definition DSLFunc : Type := Evaluated → Design → Evaluated * Design.

Definition add_Flow (current : SchemeExpr) (flow : FlowExpr) : SchemeExpr :=
  {| scheme_Kind := scheme_Kind current; SchemeName := SchemeName current;
     scheme_Description := scheme_Description current;
     scheme_Scopes := scheme_Scopes current;
     scheme_Flows := scheme_Flows current ++ [flow] |}.

Definition add_Scope (current : SchemeExpr) (scope : ScopeExpr) : SchemeExpr :=
  {| scheme_Kind := scheme_Kind current; SchemeName := SchemeName current;
     scheme_Description := scheme_Description current;
     scheme_Scopes := scheme_Scopes current ++ [scope];
     scheme_Flows := scheme_Flows current |}.

Definition isOAuth2 (k : SchemeKind) : bool :=
  match k with OAuth2Kind => true | _ => false end.

Definition AuthorizationCodeFlow (authorizationURL tokenURL refreshURL : string) : DSLFunc :=
  fun current st =>
    match current with
    | EvScheme current =>
        if negb (isOAuth2 (scheme_Kind current))
        then (EvScheme current,
              ReportError "cannot specify flow for non-oauth2 security scheme." [] st)
        else (EvScheme (add_Flow current
                          {| flow_Kind := AuthorizationCodeFlowKind;
                             flow_AuthorizationURL := authorizationURL;
                             flow_TokenURL := tokenURL;
                             flow_RefreshURL := refreshURL |}), st)
    | _ => (current, IncompatibleDSL st)
    end.

Definition ImplicitFlow (authorizationURL refreshURL : string) : DSLFunc :=
  fun current st =>
    match current with
    | EvScheme current =>
        if negb (isOAuth2 (scheme_Kind current))
        then (EvScheme current,
              ReportError "cannot specify flow for non-oauth2 security scheme." [] st)
        else (EvScheme (add_Flow current
                          {| flow_Kind := ImplicitFlowKind;
                             flow_AuthorizationURL := authorizationURL;
                             flow_TokenURL := "";
                             flow_RefreshURL := refreshURL |}), st)
    | _ => (current, IncompatibleDSL st)
    end.

Definition PasswordFlow (tokenURL refreshURL : string) : DSLFunc :=
  fun current st =>
    match current with
    | EvScheme current =>
        if negb (isOAuth2 (scheme_Kind current))
        then (EvScheme current,
              ReportError "cannot specify flow for non-oauth2 security scheme." [] st)
        else (EvScheme (add_Flow current
                          {| flow_Kind := PasswordFlowKind;
                             flow_AuthorizationURL := "";
                             flow_TokenURL := tokenURL;
                             flow_RefreshURL := refreshURL |}), st)
    | _ => (current, IncompatibleDSL st)
    end.

Definition ClientCredentialsFlow (tokenURL refreshURL : string) : DSLFunc :=
  fun current st =>
    match current with
    | EvScheme current =>
        if negb (isOAuth2 (scheme_Kind current))
        then (EvScheme current,
              ReportError "cannot specify flow for non-oauth2 security scheme." [] st)
        else (EvScheme (add_Flow current
                          {| flow_Kind := ClientCredentialsFlowKind;
                             flow_AuthorizationURL := "";
                             flow_TokenURL := tokenURL;
                             flow_RefreshURL := refreshURL |}), st)
    | _ => (current, IncompatibleDSL st)
    end.

(** [Scope]: in a requirement it lists a required scope, in a scheme it
    defines a scope. *)
Definition Scope (name : string) (desc : list string) : DSLFunc :=
  fun current st =>
    match current with
    | EvSecurity current =>
        if 1 <=? length desc
        then (EvSecurity current, ReportError "too many arguments" [] st)
        else (EvSecurity {| sec_Schemes := sec_Schemes current;
                            sec_Scopes := sec_Scopes current ++ [name] |}, st)
    | EvScheme current =>
        if 1 <? length desc
        then (EvScheme current, ReportError "too many arguments" [] st)
        else
          let d := "no description" in
          let d := match desc with [d0] => d0 | _ => d end in
          (EvScheme (add_Scope current {| scope_Name := name; scope_Description := d |}),
           st)
    | EvOther => (EvOther, IncompatibleDSL st)
    end.

(** A Go closure that calls DSL functions one after the other. *)
Fixpoint dsl_calls (calls : list DSLFunc) : DSLFunc :=
  fun current st =>
    match calls with
    | [] => (current, st)
    | f :: calls' => let '(current', st') := f current st in dsl_calls calls' current' st'
    end.

(** A closure of DSL functions as the DSL function of a scheme and of a
    requirement: the current expression is the scheme, or the requirement,
    being built. *)
Definition scheme_dsl (f : DSLFunc) : SchemeDSL :=
  fun def st =>
    match f (EvScheme def) st with
    | (EvScheme def', st') => (def', st')
    | (_, st') => (def, st')
    end.

Definition SecurityDSL : Type := SecurityExpr → Design → SecurityExpr * Design.

Definition security_dsl (f : DSLFunc) : SecurityDSL :=
  fun def st =>
    match f (EvSecurity def) st with
    | (EvSecurity def', st') => (def', st')
    | (_, st') => (def, st')
    end.

(** Modelled from the spec: [eval.Execute] of goa is not part of the
    sources; this is [Execute] for the DSL function of a requirement. *)
Definition ExecuteSecurity (fn : SecurityDSL) (def : SecurityExpr) (st : Design)
    : bool * SecurityExpr * Design :=
  let '(def', st') :=
    fn def {| Schemes := Schemes st; Errors := Errors st; Current := CurrentSecurity |} in
  (length (Errors st') <=? length (Errors st), def',
   {| Schemes := Schemes st'; Errors := Errors st'; Current := Current st |}).

Record EndpointSecurityExpr := {
  esec_SecurityExpr : SecurityExpr;
  esec_Method : string }.

Record ServiceSecurityExpr := {
  ssec_SecurityExpr : SecurityExpr;
  ssec_Service : string }.

(** The root of the security design: the design of the schemes and the
    three lists of requirements. *)
Record SecurityRoot := {
  root_Design : Design;
  APISecurity : list SecurityExpr;
  ServiceSecurity : list ServiceSecurityExpr;
  EndpointSecurity : list EndpointSecurityExpr }.

Definition with_Design (st : Design) (root : SecurityRoot) : SecurityRoot :=
  {| root_Design := st; APISecurity := APISecurity root;
     ServiceSecurity := ServiceSecurity root;
     EndpointSecurity := EndpointSecurity root |}.

(** An argument of [Security] before the optional DSL function: the name of
    a scheme, a scheme, or a value of another type, given with the way Go
    prints it and its type. *)
Inductive SecurityArg : Type :=
| NameArg (val : string)
| SchemeArg (val : SchemeExpr)
| OtherArg (printed type_ : string).

(** Modelled from the spec: [eval.InvalidArgError] of goa is not part of the
    sources. It records an error that names the expected kind of argument
    and the argument found. *)
Definition InvalidArgError (expected printed type_ : string) (st : Design) : Design :=
  ReportError "cannot use %#v (type %s) as type %s" [printed; type_; expected] st.

(** The loop of [Security] that looks a name up in the registry. *)
Fixpoint find_scheme (val : string) (schemes : list SchemeExpr) : option SchemeExpr :=
  match schemes with
  | [] => None
  | s :: schemes' => if String.eqb (SchemeName s) val then Some s else find_scheme val schemes'
  end.

(** The loop of [Security] over its arguments: the schemes, or the design
    with the error at the first argument that is not one. *)
Fixpoint resolve_schemes (args : list SecurityArg) (st : Design) : list SchemeExpr + Design :=
  match args with
  | [] => inl []
  | arg :: args' =>
      let found :=
        match arg with
        | NameArg val =>
            match find_scheme val (Schemes st) with
            | Some s => inl s
            | None => inr (ReportError "security scheme %q not found" [val] st)
            end
        | SchemeArg val => inl val
        | OtherArg printed type_ =>
            inr (InvalidArgError "security scheme or security scheme name" printed type_ st)
        end in
      match found with
      | inr st' => inr st'
      | inl s =>
          match resolve_schemes args' st with
          | inl schemes => inl (s :: schemes)
          | inr st' => inr st'
          end
      end
  end.

(** [Security], given its arguments before the DSL function and the DSL
    function if the last argument is one. Without any argument the index of
    the last argument is out of range. *)
Definition Security (args : list SecurityArg) (dsl : option SecurityDSL)
    (root : SecurityRoot) : outcome SecurityRoot :=
  match args, dsl with
  | [], None => Panicked "runtime error: index out of range [-1]"
  | _, _ =>
      let st := root_Design root in
      match resolve_schemes args st with
      | inr st' => Returned (with_Design st' root)
      | inl schemes =>
          let security := {| sec_Schemes := schemes; sec_Scopes := [] |} in
          let '(ok, security, st) :=
            match dsl with
            | Some fn => ExecuteSecurity fn security st
            | None => (true, security, st)
            end in
          if negb ok then Returned (with_Design st root)
          else
            match Current st with
            | CurrentMethod actual =>
                Returned {| root_Design := st; APISecurity := APISecurity root;
                            ServiceSecurity := ServiceSecurity root;
                            EndpointSecurity :=
                              EndpointSecurity root ++
                              [ {| esec_SecurityExpr := security; esec_Method := actual |} ] |}
            | CurrentService actual =>
                Returned {| root_Design := st; APISecurity := APISecurity root;
                            ServiceSecurity :=
                              ServiceSecurity root ++
                              [ {| ssec_SecurityExpr := security; ssec_Service := actual |} ];
                            EndpointSecurity := EndpointSecurity root |}
            | CurrentAPI =>
                Returned {| root_Design := st;
                            APISecurity := APISecurity root ++ [security];
                            ServiceSecurity := ServiceSecurity root;
                            EndpointSecurity := EndpointSecurity root |}
            | _ => Returned (with_Design (IncompatibleDSL st) root)
            end
      end
  end.

(** The scheme of no kind that [NoSecurity] puts in its requirement. *)
Definition no_scheme : SchemeExpr :=
  {| scheme_Kind := NoKind; SchemeName := ""; scheme_Description := "";
     scheme_Scopes := []; scheme_Flows := [] |}.

Definition NoSecurity (root : SecurityRoot) : SecurityRoot :=
  let security := {| sec_Schemes := [no_scheme]; sec_Scopes := [] |} in
  let st := root_Design root in
  match Current st with
  | CurrentMethod actual =>
      {| root_Design := st; APISecurity := APISecurity root;
         ServiceSecurity := ServiceSecurity root;
         EndpointSecurity :=
           EndpointSecurity root ++
           [ {| esec_SecurityExpr := security; esec_Method := actual |} ] |}
  | _ => with_Design (IncompatibleDSL st) root
  end.

(** [useDSL] on the list of arguments it is given: an argument is a DSL
    function or a value of another type. Without any argument the index of
    the last argument is out of range. *)
Inductive AttributeArg : Type :=
| FuncArg (fn : AttributeDSL)
| ValueArg (printed : string).

Definition useDSL_args (args : list AttributeArg) (d : AttributeDSL)
    : outcome (list AttributeArg) :=
  match last args with
  | None => Panicked "runtime error: index out of range [-1]"
  | Some (FuncArg ds) =>
      let newdsl := fun a => d (ds a) in
      Returned (take (length args - 1) args ++ [FuncArg newdsl])
  | Some (ValueArg _) => Returned (args ++ [FuncArg d])
  end.

(** ** Vocabulary of the further properties *)

(** The paths of the routes of a design, in the order of [all_routes]. *)
Definition route_paths (r : RootExpr) : list string :=
  (λ t, route_Path t.2) <$> all_routes r.

(** The number of URI templates of a list of servers. *)
Definition uri_count (s : list ServerExpr) : nat :=
  sum_list ((λ server, sum_list (length ∘ host_URIs <$> server_Hosts server)) <$> s).

(** The files [Generate] adds for one root. *)
Definition root_files `{External} (range : MapRange) (root : Root) : list File :=
  match root with
  | ExprRoot r =>
      match openapiFiles range r with
      | (Some jsonFile, Some yamlFile, _) => [jsonFile; yamlFile]
      | _ => []
      end
  | OtherRoot _ => []
  end.

(** A design root with at least one HTTP service. *)
Definition has_services (root : Root) : bool :=
  match root with
  | ExprRoot r => negb (length (http_Services (api_HTTP (root_API r))) =? 0)
  | OtherRoot _ => false
  end.

(** The calls of the functions of the security DSL that the DSL function of
    a scheme or of a requirement is made of. *)
Inductive DSLCall : Type :=
| CallAuthorizationCodeFlow (authorizationURL tokenURL refreshURL : string)
| CallImplicitFlow (authorizationURL refreshURL : string)
| CallPasswordFlow (tokenURL refreshURL : string)
| CallClientCredentialsFlow (tokenURL refreshURL : string)
| CallScope (name : string) (desc : list string).

Definition run_call (c : DSLCall) : DSLFunc :=
  match c with
  | CallAuthorizationCodeFlow a t r => AuthorizationCodeFlow a t r
  | CallImplicitFlow a r => ImplicitFlow a r
  | CallPasswordFlow t r => PasswordFlow t r
  | CallClientCredentialsFlow t r => ClientCredentialsFlow t r
  | CallScope name desc => Scope name desc
  end.

Definition scheme_body (calls : list DSLCall) : SchemeDSL :=
  scheme_dsl (dsl_calls (run_call <$> calls)).

Definition requirement_body (calls : list DSLCall) : SecurityDSL :=
  security_dsl (dsl_calls (run_call <$> calls)).

(** What a call adds to a scheme of a kind: a flow if the scheme is an
    OAuth2 scheme, a scope if the call gives at most one description, and an
    error otherwise. *)
Definition flow_error : EvalError :=
  ReportedError "cannot specify flow for non-oauth2 security scheme." [].

Definition scope_error : EvalError := ReportedError "too many arguments" [].

Definition call_flows (kind : SchemeKind) (c : DSLCall) : list FlowExpr :=
  if isOAuth2 kind then
    match c with
    | CallAuthorizationCodeFlow a t r =>
        [ {| flow_Kind := AuthorizationCodeFlowKind; flow_AuthorizationURL := a;
             flow_TokenURL := t; flow_RefreshURL := r |} ]
    | CallImplicitFlow a r =>
        [ {| flow_Kind := ImplicitFlowKind; flow_AuthorizationURL := a;
             flow_TokenURL := ""; flow_RefreshURL := r |} ]
    | CallPasswordFlow t r =>
        [ {| flow_Kind := PasswordFlowKind; flow_AuthorizationURL := "";
             flow_TokenURL := t; flow_RefreshURL := r |} ]
    | CallClientCredentialsFlow t r =>
        [ {| flow_Kind := ClientCredentialsFlowKind; flow_AuthorizationURL := "";
             flow_TokenURL := t; flow_RefreshURL := r |} ]
    | CallScope _ _ => []
    end
  else [].

Definition call_scopes (c : DSLCall) : list ScopeExpr :=
  match c with
  | CallScope name [] => [ {| scope_Name := name; scope_Description := "no description" |} ]
  | CallScope name [d] => [ {| scope_Name := name; scope_Description := d |} ]
  | _ => []
  end.

Definition call_errors (kind : SchemeKind) (c : DSLCall) : list EvalError :=
  match c with
  | CallScope _ desc => if 1 <? length desc then [scope_error] else []
  | _ => if isOAuth2 kind then [] else [flow_error]
  end.

(** What a call adds to a requirement: a required scope if it is a scope
    without description, and an error otherwise. *)
Definition required_scopes (c : DSLCall) : list string :=
  match c with
  | CallScope name [] => [name]
  | _ => []
  end.

Definition requirement_errors (c : DSLCall) : list EvalError :=
  match c with
  | CallScope _ [] => []
  | CallScope _ _ => [scope_error]
  | _ => [IncompatibleDSLError]
  end.

(** The four functions that define a scheme, each with its kind. *)
Definition scheme_functions
    : list (SchemeKind * (string → list SchemeDSL → Design → option SchemeExpr * Design)) :=
  [(BasicAuthKind, BasicAuthSecurity); (APIKeyKind, APIKeySecurity);
   (OAuth2Kind, OAuth2Security); (JWTKind, JWTSecurity)].

Definition scheme_names (st : Design) : list string := SchemeName <$> Schemes st.

(** A DSL function that leaves the name and the kind of its scheme and the
    registry as they are, as the functions of the security DSL do. *)
Definition well_behaved (fn : SchemeDSL) : Prop :=
  ∀ def st, SchemeName (fn def st).1 = SchemeName def ∧
            scheme_Kind (fn def st).1 = scheme_Kind def ∧
            Schemes (fn def st).2 = Schemes st.

Definition add_errors (errs : list EvalError) (st : Design) : Design :=
  {| Schemes := Schemes st; Errors := Errors st ++ errs; Current := Current st |}.

(** An argument of [Security] that is a scheme or the name of a registered
    scheme, the scheme it stands for, and the error recorded for an argument
    that is neither. *)
Definition resolvable (st : Design) (arg : SecurityArg) : bool :=
  match arg with
  | NameArg val => bool_decide (val ∈ scheme_names st)
  | SchemeArg _ => true
  | OtherArg _ _ => false
  end.

Definition resolved (st : Design) (arg : SecurityArg) : list SchemeExpr :=
  match arg with
  | NameArg val => option_list (find_scheme val (Schemes st))
  | SchemeArg val => [val]
  | OtherArg _ _ => []
  end.

Definition argument_error (arg : SecurityArg) : list EvalError :=
  match arg with
  | NameArg val => [ReportedError "security scheme %q not found" [val]]
  | SchemeArg _ => []
  | OtherArg printed type_ =>
      [ReportedError "cannot use %#v (type %s) as type %s"
         [printed; type_; "security scheme or security scheme name"]]
  end.

(** A scheme with further scopes and flows. *)
Definition extend_scheme (d : SchemeExpr) (scopes : list ScopeExpr) (flows : list FlowExpr)
    : SchemeExpr :=
  {| scheme_Kind := scheme_Kind d; SchemeName := SchemeName d;
     scheme_Description := scheme_Description d;
     scheme_Scopes := scheme_Scopes d ++ scopes;
     scheme_Flows := scheme_Flows d ++ flows |}.

(** The scheme a definition starts from. *)
Definition new_scheme (kind : SchemeKind) (name : string) : SchemeExpr :=
  {| scheme_Kind := kind; SchemeName := name; scheme_Description := "";
     scheme_Scopes := []; scheme_Flows := [] |}.

(** The DSL function of the scheme [googAuth], and the scheme it gives. *)
Definition googAuth_calls : list DSLCall :=
  [CallImplicitFlow "/authorization" "/refresh";
   CallScope "api:write" ["Write acess"];
   CallScope "api:read" []].

Definition googAuth : SchemeExpr :=
  {| scheme_Kind := OAuth2Kind; SchemeName := "googAuth"; scheme_Description := "";
     scheme_Scopes := [ {| scope_Name := "api:write"; scope_Description := "Write acess" |};
                        {| scope_Name := "api:read";
                           scope_Description := "no description" |} ];
     scheme_Flows := [ {| flow_Kind := ImplicitFlowKind;
                          flow_AuthorizationURL := "/authorization";
                          flow_TokenURL := ""; flow_RefreshURL := "/refresh" |} ] |}.

(** A root of the security design with the schemes [basic] and [googAuth],
    while the DSL of the API, of the service [calc] and of the method [add]
    is run. *)
Definition auth_design (current : Expression) : Design :=
  {| Schemes := [basic_scheme; googAuth]; Errors := []; Current := current |}.

Definition auth_root (current : Expression) : SecurityRoot :=
  {| root_Design := auth_design current; APISecurity := [];
     ServiceSecurity := []; EndpointSecurity := [] |}.

(** The requirement [NoSecurity] records: the scheme of no kind alone. *)
Definition no_security : SecurityExpr :=
  {| sec_Schemes := [no_scheme]; sec_Scopes := [] |}.

(** The attribute a DSL function is run on by [Attribute], and the keys of
    the metadata of an attribute. *)
Definition plain_attribute (type : DataType) (description : string)
    (fn : option AttributeDSL) : AttributeExpr :=
  nat_Attribute (Attribute "" type description fn).

Definition meta_keys (a : AttributeExpr) : list string := (attr_Meta a).*1.

(** Whether a character occurs in a string. *)
Fixpoint occurs (c : Ascii.ascii) (s : string) : bool :=
  match s with
  | EmptyString => false
  | String c' s' => Ascii.eqb c' c || occurs c s'
  end.

(** Two services and their methods whose operations get the same
    identifier. *)
Definition hash_service : HTTPServiceExpr :=
  {| svc_Name := "a#b"; svc_HTTPEndpoints := [endpoint_at "c" "GET" "/c"] |}.

Definition plain_service : HTTPServiceExpr :=
  {| svc_Name := "a"; svc_HTTPEndpoints := [endpoint_at "b#c" "GET" "/c"] |}.

(** * Properties *)

(** ** Document metadata *)

(** C6: the version of the info block of the assembled document is the
    version the API declares when that version is not empty, and the string
    "unversioned" when the API declares none. *)
Theorem info_version `{External} (r : RootExpr) :
  (api_Version (root_API r) ≠ "" →
     Info_Version (Swagger_Info (NewV3 r).1) = api_Version (root_API r)) ∧
  (api_Version (root_API r) = "" →
     Info_Version (Swagger_Info (NewV3 r).1) = "unversioned").
Proof.
  cbn [NewV3 fst Swagger_Info info Info_Version].
  destruct (String.eqb_spec (api_Version (root_API r)) "") as [Heq | Hne]; cbn [negb].
  - split; [congruence | done].
  - split; [done | congruence].
Qed.

Lemma info_version_witness :
  (api_Version (root_API root_versioned) ≠ "" ∧
   Info_Version (Swagger_Info (NewV3 (H := goa) root_versioned).1) = "1.0") ∧
  (api_Version (root_API root_unversioned) = "" ∧
   Info_Version (Swagger_Info (NewV3 (H := goa) root_unversioned).1) = "unversioned").
Proof.
  split; split.
  - discriminate.
  - apply (proj1 (info_version (H := goa) root_versioned)). discriminate.
  - reflexivity.
  - apply (proj2 (info_version (H := goa) root_unversioned)). reflexivity.
Defined.

(** ** Servers *)

Lemma servers_of_host_app host acc :
  servers_of_host host acc =
  acc ++ (server_entry <$> (uri ← host_URIs host; [(host, uri)])).
Proof.
  unfold servers_of_host. revert acc.
  induction (host_URIs host) as [|uri uris IH]; intros acc; cbn.
  - by rewrite app_nil_r.
  - rewrite IH. by rewrite <- app_assoc.
Qed.

Lemma servers_of_server_app server acc :
  servers_of_server server acc =
  acc ++ (server_entry <$> (host ← server_Hosts server; uri ← host_URIs host; [(host, uri)])).
Proof.
  unfold servers_of_server. revert acc.
  induction (server_Hosts server) as [|host hosts IH]; intros acc; cbn.
  - by rewrite app_nil_r.
  - rewrite IH, servers_of_host_app, fmap_app. by rewrite <- app_assoc.
Qed.

Lemma servers_loop_app (s : list ServerExpr) acc :
  fold_left (λ servers server, servers_of_server server servers) s acc =
  acc ++ (server_entry <$> host_uri_pairs s).
Proof.
  revert acc. induction s as [|server s IH]; intros acc; cbn.
  - by rewrite app_nil_r.
  - rewrite IH, servers_of_server_app. unfold host_uri_pairs. cbn.
    rewrite fmap_app. by rewrite <- app_assoc.
Qed.

Example servers_ex_entries :
  servers (Some servers_ex) =
  Some [ {| Server_URL := "http://localhost:80"; Server_Description := "dev" |};
         {| Server_URL := "grpc://localhost:81"; Server_Description := "dev" |};
         {| Server_URL := "https://goa.design"; Server_Description := "prod" |} ].
Proof. reflexivity. Qed.

(** C7: the servers list of the assembled document has exactly one entry per
    pair of a host and one of its URI templates, the cross product of the
    hosts of each server with the URIs of each host, in declaration order
    (servers, then hosts, then URIs); the entry carries the URI and the
    description of the host. A nil list of servers gives a nil list. *)
Theorem servers_cross_product `{External} (r : RootExpr) :
  Swagger_Servers (NewV3 r).1 =
    (λ s, server_entry <$> host_uri_pairs s) <$> api_Servers (root_API r) ∧
  (∀ s : list ServerExpr, servers (Some s) = Some (server_entry <$> host_uri_pairs s)) ∧
  servers None = None.
Proof.
  assert (Hs : ∀ s, servers (Some s) = Some (server_entry <$> host_uri_pairs s)).
  { intros s. unfold servers. by rewrite servers_loop_app. }
  split; [|by split].
  cbn [NewV3 fst Swagger_Servers]. destruct (api_Servers (root_API r)) as [s|]; [|done].
  apply Hs.
Qed.

(** ** Parameters *)

Example HTTPWildcards_ex :
  HTTPWildcards "/add/{x}/{*rest}/{}/{a-b}/y" = ["x"; "rest"].
Proof. reflexivity. Qed.

Lemma wildcard_loop_spec n wildcards in_ required :
  wildcard_loop n wildcards in_ required =
  if decide (n ∈ wildcards) then ("path", true) else (in_, required).
Proof.
  induction wildcards as [|w ws IH]; cbn.
  - by rewrite decide_False by apply not_elem_of_nil.
  - destruct (String.eqb_spec n w) as [-> | Hne].
    + by rewrite decide_True by left.
    + rewrite IH. destruct (decide (n ∈ ws)) as [Hin | Hnin].
      * by rewrite decide_True by (by right).
      * rewrite decide_False; [done|]. rewrite elem_of_cons. by intros [?|?].
Qed.

Lemma walk_attrs_params ma wildcards o res i :
  walk_attrs ma (paramsWalker wildcards) o (res, i) =
  ((res ++ (classify wildcards ma <$> o), i + length o), None).
Proof.
  revert res i. induction o as [|a o IH]; intros res i; cbn [walk_attrs].
  - by rewrite app_nil_r, Nat.add_0_r.
  - unfold paramsWalker at 1. rewrite wildcard_loop_spec.
    destruct (decide (nat_Name a ∈ wildcards)) as [Hin | Hnin] eqn:Hd;
      rewrite IH; cbn [length fmap list_fmap]; unfold classify at 2; rewrite Hd;
      rewrite <- app_assoc; cbn [app]; do 2 f_equal; lia.
Qed.

(** [paramsFromExpr] maps every attribute to its parameter, in order. *)
Lemma paramsFromExpr_fmap `{External} ma path :
  paramsFromExpr (Some ma) path = classify (ExtractHTTPWildcards path) ma <$> ma_Object ma.
Proof.
  unfold paramsFromExpr, WalkMappedAttr. by rewrite walk_attrs_params.
Qed.

Lemma paramFor_fields at_ name in_ required :
  Param_In (PRef_Value (paramFor at_ name in_ required)) = in_ ∧
  Param_Name (PRef_Value (paramFor at_ name in_ required)) = name ∧
  Param_Description (PRef_Value (paramFor at_ name in_ required)) = attr_Description at_ ∧
  Param_Required (PRef_Value (paramFor at_ name in_ required)) = required.
Proof. unfold paramFor. by destruct (IsArray (attr_Type at_)). Qed.

Example add_params_classified :
  paramsFromExpr (H := goa) (Some add_params) "/add/{x}" =
  [path_param "x" "Left operand"; query_param "y" "Right operand" false].
Proof. reflexivity. Qed.

Example calc_add_operation :
  operation (H := goa) calc_service add_endpoint add_route =
  {| Op_OperationID := "calc#add";
     Op_Description := "Add two operands";
     Op_Parameters := [path_param "x" "Left operand"; query_param "y" "Right operand" false];
     Op_Responses := ∅ |}.
Proof. reflexivity. Qed.

(** An optional attribute that is a wildcard of the path is required. *)
Example optional_wildcard_required :
  paramsFromExpr (H := goa) (Some add_params) "/add/{y}" =
  [query_param "x" "Left operand" true; path_param "y" "Right operand"].
Proof. reflexivity. Qed.

(** C1: [paramsFromExpr] emits one parameter per attribute, in declaration
    order. The parameter of an attribute whose name is a wildcard of the
    path template has in = "path" and required = true, whatever the required
    flag of the attribute; the parameter of every other attribute has
    in = "query" and the required flag of the attribute. Without an attribute
    set there is no parameter. *)
Theorem paramsFromExpr_classifies `{External} (ma : MappedAttributeExpr) (path : string) :
  Forall2 (λ a p,
      Param_Name (PRef_Value p) = ElemName ma (nat_Name a) ∧
      if decide (nat_Name a ∈ ExtractHTTPWildcards path)
      then Param_In (PRef_Value p) = "path" ∧ Param_Required (PRef_Value p) = true
      else Param_In (PRef_Value p) = "query" ∧
           Param_Required (PRef_Value p) = IsRequired ma (nat_Name a))
    (ma_Object ma) (paramsFromExpr (Some ma) path) ∧
  paramsFromExpr None path = [].
Proof.
  split; [|done].
  rewrite paramsFromExpr_fmap. apply Forall2_fmap_r, Forall_Forall2_diag, Forall_forall.
  intros a _. unfold compose, classify.
  destruct (decide (nat_Name a ∈ ExtractHTTPWildcards path));
    match goal with
    | |- context [paramFor ?at_ ?n ?i ?r] =>
        destruct (paramFor_fields at_ n i r) as (-> & -> & _ & ->)
    end; done.
Qed.

(** ** Attributes that carry credentials *)

Example secured_params_tagged :
  security_role ∘ nat_Attribute <$> ma_Object secured_params = [true; true; false].
Proof. reflexivity. Qed.

Example secured_params_emitted :
  paramsFromExpr (H := goa) (Some secured_params) "/" =
  [query_param "key" "API key used to perform authorization" true;
   query_param "user" "Name of the user" false;
   query_param "data" "Data to be written" true].
Proof. reflexivity. Qed.

(** C3 does not hold: it is not the case that no parameter has the name of
    an attribute tagged with a security role. The attribute [key] carries
    the role of an API key and the parameter list has a parameter of its
    name. *)
Lemma security_attribute_emitted :
  ¬ (∀ a p, a ∈ ma_Object secured_params →
            security_role (nat_Attribute a) = true →
            p ∈ paramsFromExpr (H := goa) (Some secured_params) "/" →
            Param_Name (PRef_Value p) ≠ nat_Name a) ∧
  ∃ a p, a ∈ ma_Object secured_params ∧
         security_role (nat_Attribute a) = true ∧
         p ∈ paramsFromExpr (H := goa) (Some secured_params) "/" ∧
         Param_Name (PRef_Value p) = nat_Name a.
Proof.
  assert (Ha : APIKey "api_key" "key" String_ "API key used to perform authorization" None
               ∈ ma_Object secured_params) by apply list_elem_of_here.
  assert (Hp : query_param "key" "API key used to perform authorization" true
               ∈ paramsFromExpr (H := goa) (Some secured_params) "/")
    by apply list_elem_of_here.
  split.
  - intros Hclaim. by apply (Hclaim _ _ Ha eq_refl Hp).
  - by do 2 eexists.
Qed.

(** C3, amended: [paramsFromExpr] does not look at the tags of the security
    DSL. Every attribute, tagged with a security role or not, yields exactly
    one parameter, in declaration order and under its element name, and the
    list is the one of the same attributes without their tags. *)
Theorem paramsFromExpr_ignores_security_role `{External}
    (ma : MappedAttributeExpr) (path : string) :
  Param_Name ∘ PRef_Value <$> paramsFromExpr (Some ma) path =
    (λ a, ElemName ma (nat_Name a)) <$> ma_Object ma ∧
  paramsFromExpr (Some (untagged ma)) path = paramsFromExpr (Some ma) path.
Proof.
  rewrite !paramsFromExpr_fmap. split.
  - rewrite <- list_fmap_compose. apply list_fmap_ext. intros _ a _. cbn.
    unfold classify. destruct (decide (nat_Name a ∈ ExtractHTTPWildcards path));
      match goal with
      | |- context [paramFor ?at_ ?n ?i ?r] =>
          by destruct (paramFor_fields at_ n i r) as (_ & -> & _)
      end.
  - cbn [untagged ma_Object]. rewrite <- list_fmap_compose.
    apply list_fmap_ext. intros _ a _. cbn. unfold classify. cbn.
    by destruct (decide (nat_Name a ∈ ExtractHTTPWildcards path)).
Qed.

(** ** Paths *)

Section PathsLemmas.

Context `{External}.

Lemma fold_left_bind {A B C} (f : C → B → C) (g : A → list B) (l : list A) (acc : C) :
  fold_left f (l ≫= g) acc = fold_left (λ acc x, fold_left f (g x) acc) l acc.
Proof.
  revert acc. induction l as [|x l IH]; intros acc; [done|].
  cbn. by rewrite fold_left_app, IH.
Qed.

Lemma fold_left_pointwise {A B} (f g : B → A → B) (l : list A) (acc : B) :
  (∀ acc x, f acc x = g acc x) → fold_left f l acc = fold_left g l acc.
Proof.
  intros Hfg. revert acc. induction l as [|x l IH]; intros acc; [done|].
  cbn. by rewrite Hfg, IH.
Qed.

Lemma paths_all_routes (r : RootExpr) :
  paths r = fold_left route_step (all_routes r) ∅.
Proof.
  unfold paths, all_routes. rewrite fold_left_bind.
  apply fold_left_pointwise; intros m service. unfold paths_service.
  rewrite fold_left_bind. apply fold_left_pointwise; intros m' endpoint.
  unfold paths_endpoint. rewrite fold_left_bind.
  apply fold_left_pointwise; intros m'' route. done.
Qed.

Lemma paths_route_lookup_eq s e rt (m : gmap string PathItem) :
  paths_route s e rt m !! route_Path rt =
  Some (set_Get (default emptyPathItem (m !! route_Path rt)) (operation s e rt)).
Proof.
  unfold paths_route. rewrite lookup_insert_eq.
  by destruct (m !! route_Path rt).
Qed.

Lemma paths_route_lookup_ne s e rt (m : gmap string PathItem) p :
  p ≠ route_Path rt → paths_route s e rt m !! p = m !! p.
Proof. intros Hne. unfold paths_route. by rewrite lookup_insert_ne. Qed.

Lemma get_only_empty : get_only ∅.
Proof. intros p item Hp. by rewrite lookup_empty in Hp. Qed.

Lemma get_only_step m t : get_only m → get_only (route_step m t).
Proof.
  intros Hm p item. unfold route_step.
  destruct (decide (p = route_Path t.2)) as [-> | Hne].
  - rewrite paths_route_lookup_eq. intros [= <-].
    destruct (m !! route_Path t.2) as [item|] eqn:Hp; cbn; [|by eexists].
    destruct (Hm _ _ Hp) as [op ->]. by eexists.
  - rewrite paths_route_lookup_ne by done. apply Hm.
Qed.

Lemma get_only_fold l m : get_only m → get_only (fold_left route_step l m).
Proof.
  revert m. induction l as [|t l IH]; intros m Hm; [done|].
  cbn. by apply IH, get_only_step.
Qed.

Lemma fold_lookup_other l m p :
  Forall (λ t, route_Path t.2 ≠ p) l → fold_left route_step l m !! p = m !! p.
Proof.
  revert m. induction l as [|t l IH]; intros m Hl; [done|].
  inversion Hl as [|?? Ht Hl']; subst. cbn. rewrite IH by done.
  unfold route_step. by rewrite paths_route_lookup_ne.
Qed.

(** The path item of a path is decided by the last route of that path. *)
Lemma fold_lookup_last l1 l2 s e rt :
  Forall (λ t, route_Path t.2 ≠ route_Path rt) l2 →
  fold_left route_step (l1 ++ (s, e, rt) :: l2) ∅ !! route_Path rt =
  Some (set_Get emptyPathItem (operation s e rt)).
Proof.
  intros Hl2. rewrite fold_left_app. cbn [fold_left].
  rewrite fold_lookup_other by done. unfold route_step at 1. cbn [fst snd].
  rewrite paths_route_lookup_eq.
  destruct (fold_left route_step l1 ∅ !! route_Path rt) as [item|] eqn:Hp; [|done].
  by destruct (get_only_fold l1 ∅ get_only_empty _ _ Hp) as [op ->].
Qed.

Lemma fold_lookup_is_Some l m p :
  is_Some (fold_left route_step l m !! p) ↔
  is_Some (m !! p) ∨ ∃ t, t ∈ l ∧ route_Path t.2 = p.
Proof.
  revert m. induction l as [|t l IH]; intros m.
  - cbn. split; [by left|]. intros [?|(t & Ht & _)]; [done|]. by inversion Ht.
  - cbn [fold_left]. rewrite IH. unfold route_step at 1.
    destruct (decide (p = route_Path t.2)) as [-> | Hne].
    + rewrite paths_route_lookup_eq. split; [|by left; eexists].
      intros _. right. exists t. split; [left|done].
    + rewrite paths_route_lookup_ne by done. split.
      * intros [?|(t' & Ht' & Hp)]; [by left|]. right. exists t'. split; [by right|done].
      * intros [?|(t' & Ht' & Hp)]; [by left|]. right. exists t'. split; [|done].
        apply elem_of_cons in Ht' as [-> | ?]; [congruence|done].
Qed.

Lemma fold_left_fmap {A B C} (f : C → B → C) (g : A → B) (l : list A) (acc : C) :
  fold_left f (g <$> l) acc = fold_left (λ acc x, f acc (g x)) l acc.
Proof. revert acc. induction l as [|x l IH]; intros acc; [done|]. cbn. by rewrite IH. Qed.

(** The paths of a design do not depend on the verbs of its routes. *)
Lemma paths_with_verbs (f : RouteExpr → string) (r : RootExpr) :
  paths (with_verbs f r) = paths r.
Proof.
  unfold paths. cbn [with_verbs root_API api_HTTP http_Services].
  rewrite fold_left_fmap. apply fold_left_pointwise; intros m service.
  unfold paths_service. cbn [with_verbs_service svc_HTTPEndpoints].
  rewrite fold_left_fmap. apply fold_left_pointwise; intros m' endpoint.
  unfold paths_endpoint. cbn [with_verbs_endpoint ep_Routes].
  rewrite fold_left_fmap. by apply fold_left_pointwise.
Qed.

End PathsLemmas.

Example verbs_root_routes :
  all_routes verbs_root = [(verbs_service, reader, get_x); (verbs_service, writer, post_x)].
Proof. reflexivity. Qed.

(** C10: the operation built for a route is stored in the GET field of the
    path item of its path, the other fields of the item being left as they
    were; the verb of the route is not consulted, a route with any other verb
    gives the same paths, and so does a design with any other verbs on its
    routes; and the operation of a later route of the same path
    replaces that of an earlier one, so that the path item of a path holds,
    under GET only, the operation of the last route of that path. *)
Theorem operation_stored_in_Get `{External} :
  (∀ s e rt (m : gmap string PathItem),
     paths_route s e rt m !! route_Path rt =
       Some (set_Get (default emptyPathItem (m !! route_Path rt)) (operation s e rt)) ∧
     Get <$> paths_route s e rt m !! route_Path rt = Some (Some (operation s e rt))) ∧
  (∀ s e rt verb (m : gmap string PathItem),
     paths_route s e (with_verb verb rt) m = paths_route s e rt m) ∧
  (∀ (f : RouteExpr → string) r,
     Paths (NewV3 (with_verbs f r)).1 = Paths (NewV3 r).1) ∧
  (∀ r l1 l2 s e rt,
     all_routes r = l1 ++ (s, e, rt) :: l2 →
     Forall (λ t, route_Path t.2 ≠ route_Path rt) l2 →
     Paths (NewV3 r).1 !! route_Path rt =
       Some (set_Get emptyPathItem (operation s e rt))).
Proof.
  split; [|split; [|split]].
  - intros s e rt m. rewrite paths_route_lookup_eq. by split.
  - done.
  - intros f r. apply paths_with_verbs.
  - intros r l1 l2 s e rt Hr Hl2. cbn [NewV3 fst Paths].
    rewrite paths_all_routes, Hr. by apply fold_lookup_last.
Qed.

Lemma operation_stored_in_Get_witness :
  ∃ item, Paths (NewV3 (H := goa) verbs_root).1 !! "/x" = Some item ∧
          Get item = Some (operation (H := goa) verbs_service writer post_x) ∧
          Post item = None.
Proof.
  eexists. split.
  - apply (proj2 (proj2 (proj2 (operation_stored_in_Get (H := goa)))) verbs_root
             [(verbs_service, reader, get_x)] [] verbs_service writer post_x).
    + reflexivity.
    + constructor.
  - split; reflexivity.
Defined.

Example same_root_conflicting : conflicting same_root.
Proof.
  exists 0, 1. do 6 eexists. split; [reflexivity|]. split; [reflexivity|].
  split; [|split; reflexivity]. cbn. intros [=].
Qed.

(** C2 does not hold: the two methods routed at [GET /same] conflict, yet
    [NewV3] returns a document and no error, and the two files are
    generated; and the routes [GET /x] and [POST /x] give a path item whose
    only operation, under GET, is that of the route with the verb POST. *)
Lemma conflicting_routes_assembled :
  ¬ (conflicting same_root → ∃ err, (NewV3 (H := goa) same_root).2 = Some err) ∧
  conflicting same_root ∧
  (∃ d, NewV3 (H := goa) same_root = (d, None) ∧ is_Some (Paths d !! "/same")) ∧
  (∃ jsonFile yamlFile,
     openapiFiles (H := goa) range_up same_root = (Some jsonFile, Some yamlFile, None)) ∧
  (∃ item, Paths (NewV3 (H := goa) verbs_root).1 !! "/x" = Some item ∧
           Get item = Some (operation (H := goa) verbs_service writer post_x) ∧
           Post item = None).
Proof.
  split; [|split; [apply same_root_conflicting|split; [|split]]].
  - intros Hclaim. by destruct (Hclaim same_root_conflicting) as [err Herr].
  - eexists. split; [reflexivity|]. cbn [Paths]. rewrite paths_all_routes.
    apply fold_lookup_is_Some. right. eexists. split; [apply list_elem_of_here|done].
  - by do 2 eexists.
  - eexists. split.
    { cbn [NewV3 fst Paths]. rewrite paths_all_routes.
      by apply (fold_lookup_last [(verbs_service, reader, get_x)] []). }
    split; reflexivity.
Qed.

(** C2, amended: [NewV3] returns a document and no error for every design,
    also when two routes of different methods have the same path and verb.
    The routes of one path are merged into one path item: the document has
    a path item for a path exactly when the design has a route of that
    path. *)
Theorem routes_merged_without_error `{External} (r : RootExpr) :
  (NewV3 r).2 = None ∧
  ∀ p, is_Some (Paths (NewV3 r).1 !! p) ↔ ∃ t, t ∈ all_routes r ∧ route_Path t.2 = p.
Proof.
  split; [done|]. intros p. cbn [NewV3 fst Paths].
  rewrite paths_all_routes, fold_lookup_is_Some, lookup_empty.
  split; [intros [[? [=]]|?]; done | by right].
Qed.

(** ** Designs without HTTP services *)

(** C4 does not hold: no service of [idle_root] exposes a route, yet both
    files are produced for it and [Generate] returns them. *)
Lemma routeless_service_assembled :
  ¬ (all_routes idle_root = [] →
     openapiFiles (H := goa) range_up idle_root = (None, None, None)) ∧
  all_routes idle_root = [] ∧
  ∃ jsonFile yamlFile,
    openapiFiles (H := goa) range_up idle_root = (Some jsonFile, Some yamlFile, None) ∧
    Generate (H := goa) range_up "" [ExprRoot idle_root] [] = ([jsonFile; yamlFile], None).
Proof.
  split; [|split; [reflexivity|by do 2 eexists]].
  intros Hclaim. by specialize (Hclaim eq_refl).
Qed.

(** C4, amended: for every design that has no HTTP service at all,
    [openapiFiles] produces neither file and no error, and [Generate] leaves
    the files as they are; for a design that has an HTTP service, with or
    without routes, both files are produced. *)
Theorem no_services_no_document `{External} (range : MapRange) (r : RootExpr) :
  (http_Services (api_HTTP (root_API r)) = [] →
     openapiFiles range r = (None, None, None) ∧
     ∀ genpkg files, Generate range genpkg [ExprRoot r] files = (files, None)) ∧
  (http_Services (api_HTTP (root_API r)) ≠ [] →
     ∃ jsonFile yamlFile, openapiFiles range r = (Some jsonFile, Some yamlFile, None)).
Proof.
  split.
  - intros Hs.
    assert (Hf : openapiFiles range r = (None, None, None)).
    { unfold openapiFiles. by rewrite Hs. }
    split; [done|]. intros genpkg files. unfold Generate. cbn. by rewrite Hf.
  - intros Hs. unfold openapiFiles.
    destruct (http_Services (api_HTTP (root_API r))) as [|s ss]; [done|].
    cbn. by do 2 eexists.
Qed.

Lemma no_services_no_document_witness :
  (http_Services (api_HTTP (root_API root_unversioned)) = [] ∧
   openapiFiles (H := goa) range_up root_unversioned = (None, None, None)) ∧
  (http_Services (api_HTTP (root_API idle_root)) ≠ [] ∧
   ∃ jsonFile yamlFile,
     openapiFiles (H := goa) range_up idle_root = (Some jsonFile, Some yamlFile, None)).
Proof.
  split; split.
  - reflexivity.
  - apply (proj1 (no_services_no_document (H := goa) range_up root_unversioned)).
    reflexivity.
  - discriminate.
  - apply (proj2 (no_services_no_document (H := goa) range_up idle_root)).
    discriminate.
Defined.

(** ** Encoding failures *)

Example toJSON_returns :
  toJSON (H := goa) range_up (NewV3 (H := goa) verbs_root).1 = Returned "3.0.0 /x".
Proof. reflexivity. Qed.

Example toJSON_panics :
  toJSON (H := goa_failing) range_up (NewV3 (H := goa_failing) verbs_root).1 =
  Panicked "openapi: unsupported value".
Proof. reflexivity. Qed.

(** C9: [toJSON] and [toYAML] have a string as their only result. When the
    encoder returns bytes they return them; when the encoder returns an error
    they panic with the message of the error, and do not return. *)
Theorem encoding_failure_panics `{External} (range : MapRange) (d : Swagger) :
  ((∃ b, json_Marshal range d = inl b ∧ toJSON range d = Returned b) ∨
   (∃ err, json_Marshal range d = inr err ∧
           toJSON range d = Panicked ("openapi: " +:+ err))) ∧
  ((∃ b, yaml_Marshal range d = inl b ∧ toYAML range d = Returned b) ∨
   (∃ err, yaml_Marshal range d = inr err ∧
           toYAML range d = Panicked ("openapi: " +:+ err))).
Proof.
  unfold toJSON, toYAML. split.
  - destruct (json_Marshal range d) as [b | err]; [left | right]; by eexists.
  - destruct (yaml_Marshal range d) as [b | err]; [left | right]; by eexists.
Qed.

(** ** The registry of security schemes *)

Lemma redefined_loop_registered name schemes st :
  (∃ s, s ∈ schemes ∧ SchemeName s = name) →
  redefined_loop name schemes st =
  (true, ReportError "cannot redefine security scheme with name %q" [name] st).
Proof.
  induction schemes as [|s schemes IH]; intros (s' & Hin & Hname).
  - by inversion Hin.
  - cbn. destruct (String.eqb_spec (SchemeName s) name) as [_ | Hne]; [done|].
    apply IH. exists s'. split; [|done].
    apply elem_of_cons in Hin as [-> | Hin]; [done|done].
Qed.

Lemma redefined_loop_fresh name schemes st :
  (∀ s, s ∈ schemes → SchemeName s ≠ name) →
  redefined_loop name schemes st = (false, st).
Proof.
  induction schemes as [|s schemes IH]; intros Hfresh; [done|].
  cbn. destruct (String.eqb_spec (SchemeName s) name) as [Heq | _].
  - by destruct (Hfresh s (list_elem_of_here _ _)).
  - apply IH. intros s' Hin. apply Hfresh. by right.
Qed.

(** What a definition of an already registered name does, at the top level
    and elsewhere. *)
Lemma defineScheme_registered kind name dsl st :
  (∃ s, s ∈ Schemes st ∧ SchemeName s = name) →
  defineScheme kind name dsl st =
  (None, if isTopExpr (Current st)
         then ReportError "cannot redefine security scheme with name %q" [name] st
         else IncompatibleDSL st).
Proof.
  intros Hreg. unfold defineScheme, securitySchemeRedefined.
  destruct (isTopExpr (Current st)); cbn [negb]; [|done].
  by rewrite redefined_loop_registered.
Qed.

Example basic_defined :
  BasicAuthSecurity "basic" [] empty_design = (Some basic_scheme, basic_design).
Proof. reflexivity. Qed.

Example basic_redefined_as_jwt :
  JWTSecurity "basic" [] basic_design =
  (None, {| Schemes := [basic_scheme];
            Errors := [redefinition_error "basic"];
            Current := TopExpr |}).
Proof. reflexivity. Qed.

(** C8: when a scheme of the name is registered already, each of the four
    functions that define a scheme, called at the top level of the design
    where schemes are defined, records the error of a redefined name, returns
    no scheme and leaves the registry as it is, without running the DSL
    function it is given. Called anywhere else it leaves the registry as it
    is as well. *)
Theorem scheme_redefinition_rejected (name : string) (dsl : list SchemeDSL) (st : Design) :
  (∃ s, s ∈ Schemes st ∧ SchemeName s = name) →
  Forall (λ define : string → list SchemeDSL → Design → option SchemeExpr * Design,
            (define name dsl st).1 = None ∧
            Schemes (define name dsl st).2 = Schemes st ∧
            (Current st = TopExpr →
               Errors (define name dsl st).2 = Errors st ++ [redefinition_error name] ∧
               Current (define name dsl st).2 = Current st))
         [BasicAuthSecurity; APIKeySecurity; OAuth2Security; JWTSecurity].
Proof.
  intros Hreg.
  assert (Hk : ∀ kind,
    (defineScheme kind name dsl st).1 = None ∧
    Schemes (defineScheme kind name dsl st).2 = Schemes st ∧
    (Current st = TopExpr →
       Errors (defineScheme kind name dsl st).2 = Errors st ++ [redefinition_error name] ∧
       Current (defineScheme kind name dsl st).2 = Current st)).
  { intros kind. rewrite defineScheme_registered by done. cbn [fst snd].
    split; [done|]. split.
    - by destruct (isTopExpr (Current st)).
    - intros Htop. rewrite Htop. cbn. by split. }
  repeat (apply Forall_cons; split; [apply Hk|]). by apply Forall_nil.
Qed.

Lemma scheme_redefinition_rejected_witness :
  (∃ s, s ∈ Schemes basic_design ∧ SchemeName s = "basic") ∧
  (OAuth2Security "basic" [] basic_design).1 = None ∧
  Schemes (OAuth2Security "basic" [] basic_design).2 = [basic_scheme] ∧
  Errors (OAuth2Security "basic" [] basic_design).2 = [redefinition_error "basic"].
Proof.
  assert (Hreg : ∃ s, s ∈ Schemes basic_design ∧ SchemeName s = "basic").
  { exists basic_scheme. split; [apply list_elem_of_here | reflexivity]. }
  split; [exact Hreg|].
  pose proof (scheme_redefinition_rejected "basic" [] basic_design Hreg) as Hall.
  apply Forall_cons in Hall as [_ Hall]. apply Forall_cons in Hall as [_ Hall].
  apply Forall_cons in Hall as [(Hnone & Hschemes & Herrors) _].
  split; [exact Hnone|]. split; [exact Hschemes|].
  exact (proj1 (Herrors eq_refl)).
Defined.

(** * Further properties *)

(** ** Parameters, servers and paths *)

(** X1: every parameter of [paramsFromExpr] carries the description of its
    attribute, has an empty reference, and has the explode flag set to true
    exactly when the type of the attribute is an array, also through user
    types; otherwise the flag is absent. *)
Theorem paramsFromExpr_details `{External} (ma : MappedAttributeExpr) (path : string) :
  Forall2 (λ a p,
      PRef_Ref p = "" ∧
      Param_Description (PRef_Value p) = attr_Description (nat_Attribute a) ∧
      Param_Explode (PRef_Value p) =
        if IsArray (attr_Type (nat_Attribute a)) then Some true else None)
    (ma_Object ma) (paramsFromExpr (Some ma) path).
Proof.
  rewrite paramsFromExpr_fmap. apply Forall2_fmap_r, Forall_Forall2_diag, Forall_forall.
  intros a _. unfold compose, classify, paramFor.
  by destruct (decide (nat_Name a ∈ ExtractHTTPWildcards path)),
              (IsArray (attr_Type (nat_Attribute a))).
Qed.

Lemma host_uri_pairs_app (s1 s2 : list ServerExpr) :
  host_uri_pairs (s1 ++ s2) = host_uri_pairs s1 ++ host_uri_pairs s2.
Proof. unfold host_uri_pairs. apply bind_app. Qed.

Lemma length_bind_sum {A B} (f : A → list B) (l : list A) :
  length (l ≫= f) = sum_list (length ∘ f <$> l).
Proof.
  induction l as [|x l IH]; [done|].
  cbn [mbind list_bind fmap list_fmap sum_list sum_list_with]. by rewrite length_app, IH.
Qed.

Lemma host_uri_pairs_length (s : list ServerExpr) :
  length (host_uri_pairs s) = uri_count s.
Proof.
  unfold host_uri_pairs, uri_count. rewrite length_bind_sum. f_equal.
  apply list_fmap_ext. intros _ server _. unfold compose. rewrite length_bind_sum.
  f_equal. apply list_fmap_ext. intros _ host _. unfold compose.
  induction (host_URIs host) as [|uri uris IH]; [done|]. cbn. by rewrite <- IH.
Qed.

(** X2: [servers] of two lists of servers one after the other is what it
    gives for the first followed by what it gives for the second; an empty
    list that is not nil gives an empty list that is not nil; and the number
    of entries is the number of URI templates of all hosts, so that a server
    without hosts and a host without URIs contribute no entry. *)
Theorem servers_app (s1 s2 : list ServerExpr) :
  servers (Some (s1 ++ s2)) =
    Some (default [] (servers (Some s1)) ++ default [] (servers (Some s2))) ∧
  servers (Some []) = Some [] ∧
  length (default [] (servers (Some s1))) = uri_count s1.
Proof.
  assert (Hs : ∀ s, servers (Some s) = Some (server_entry <$> host_uri_pairs s)).
  { intros s. unfold servers. by rewrite servers_loop_app. }
  rewrite !Hs. cbn [default from_option id]. split; [|split; [done|]].
  - by rewrite host_uri_pairs_app, fmap_app.
  - by rewrite length_fmap, host_uri_pairs_length.
Qed.

(** A list of routes either has no route of a path or splits at the last
    route of that path. *)
Lemma last_route_split (l : list (HTTPServiceExpr * HTTPEndpointExpr * RouteExpr)) p :
  Forall (λ t, route_Path t.2 ≠ p) l ∨
  ∃ l1 t l2, l = l1 ++ t :: l2 ∧ route_Path t.2 = p ∧ Forall (λ t, route_Path t.2 ≠ p) l2.
Proof.
  induction l as [|t l [IH | (l1 & t' & l2 & -> & Hp & Hl2)]].
  - left. constructor.
  - destruct (decide (route_Path t.2 = p)) as [Heq | Hne].
    + right. by exists [], t, l.
    + left. by constructor.
  - right. by exists (t :: l1), t', l2.
Qed.

(** X3: every path item of the assembled document comes from a route of the
    design: it has an operation under GET only, and that operation is the
    one built for a route of that path, with its service and its endpoint.
    No path item is made up and no path item has an operation under another
    verb. *)
Theorem path_items_from_routes `{External} (r : RootExpr) (p : string) (item : PathItem) :
  Paths (NewV3 r).1 !! p = Some item →
  ∃ s e rt, (s, e, rt) ∈ all_routes r ∧ route_Path rt = p ∧
            item = set_Get emptyPathItem (operation s e rt).
Proof.
  cbn [NewV3 fst Paths]. rewrite paths_all_routes.
  destruct (last_route_split (all_routes r) p)
    as [Hno | (l1 & [[s e] rt] & l2 & Hr & Hp & Hl2)].
  - rewrite fold_lookup_other, lookup_empty by done. discriminate.
  - rewrite Hr. cbn in Hp. subst p. rewrite fold_lookup_last by done.
    intros [= <-]. exists s, e, rt. split; [|done].
    apply elem_of_app. right. left.
Qed.

Lemma path_items_from_routes_witness :
  ∃ s e rt, (s, e, rt) ∈ all_routes verbs_root ∧ route_Path rt = "/x" ∧
            set_Get emptyPathItem (operation (H := goa) verbs_service writer post_x) =
            set_Get emptyPathItem (operation (H := goa) s e rt).
Proof.
  apply (path_items_from_routes (H := goa) verbs_root "/x").
  cbn [NewV3 fst Paths]. rewrite paths_all_routes.
  apply (fold_lookup_last (H := goa) [(verbs_service, reader, get_x)] []).
  constructor.
Defined.

Lemma dom_paths `{External} (r : RootExpr) :
  dom (paths r) = list_to_set (route_paths r).
Proof.
  apply set_eq. intros p. rewrite elem_of_dom, elem_of_list_to_set.
  rewrite paths_all_routes, fold_lookup_is_Some, lookup_empty.
  unfold route_paths. rewrite list_elem_of_fmap. split.
  - intros [[? [=]] | (t & Ht & Hp)]. by exists t.
  - intros (t & Hp & Ht). right. by exists t.
Qed.

Lemma size_list_to_set_le (l : list string) :
  size (list_to_set l : gset string) ≤ length l ∧
  (size (list_to_set l : gset string) = length l ↔ NoDup l).
Proof.
  induction l as [|x l [IHle IHeq]].
  - split; [done|]. split; [constructor | done].
  - cbn [list_to_set foldr length]. destruct (decide (x ∈ l)) as [Hin | Hnin].
    + assert (Hsub : {[x]} ∪ list_to_set l = (list_to_set l : gset string)).
      { apply subseteq_union_1_L, singleton_subseteq_l. by apply elem_of_list_to_set. }
      rewrite Hsub. split; [lia|]. split; [lia|].
      intros Hnd. by apply NoDup_cons in Hnd as [? _].
    + rewrite size_union, size_singleton
        by (apply disjoint_singleton_l; by rewrite elem_of_list_to_set).
      split; [lia|]. rewrite NoDup_cons. split.
      * intros Hs. split; [done|]. apply IHeq. lia.
      * intros [_ Hnd]. apply IHeq in Hnd. lia.
Qed.

(** X4: the document never has more path items than the design has routes,
    and it has as many exactly when no two routes have the same path; when
    two routes share a path an operation is lost. *)
Theorem path_items_count `{External} (r : RootExpr) :
  size (Paths (NewV3 r).1) ≤ length (all_routes r) ∧
  (size (Paths (NewV3 r).1) = length (all_routes r) ↔ NoDup (route_paths r)).
Proof.
  cbn [NewV3 fst Paths].
  assert (Hsize : size (paths r) = size (list_to_set (route_paths r) : gset string)).
  { by rewrite <- dom_paths, size_dom. }
  assert (Hlen : length (route_paths r) = length (all_routes r)).
  { unfold route_paths. by rewrite length_fmap. }
  rewrite Hsize, <- Hlen. apply size_list_to_set_le.
Qed.

(** ** Generation of the files *)

Lemma openapiFiles_cases `{External} (range : MapRange) (r : RootExpr) :
  openapiFiles range r = (None, None, None) ∨
  ∃ jsonFile yamlFile, openapiFiles range r = (Some jsonFile, Some yamlFile, None).
Proof.
  unfold openapiFiles.
  destruct (length (http_Services (api_HTTP (root_API r))) =? 0); [by left|].
  right. by do 2 eexists.
Qed.

Lemma Generate_loop_app `{External} (range : MapRange) (roots : list Root) (files : list File) :
  Generate_loop range roots files = (files ++ (roots ≫= root_files range), None).
Proof.
  revert files. induction roots as [|root roots IH]; intros files.
  - cbn. by rewrite app_nil_r.
  - cbn [Generate_loop mbind list_bind]. destruct root as [r | name].
    + cbn [root_files].
      destruct (openapiFiles_cases range r) as [-> | (jsonFile & yamlFile & ->)].
      * by rewrite IH.
      * rewrite IH. by rewrite <- app_assoc.
    + by rewrite IH.
Qed.

Lemma root_files_length `{External} (range : MapRange) (roots : list Root) :
  length (roots ≫= root_files range) = 2 * length (filter has_services roots).
Proof.
  induction roots as [|root roots IH]; [done|].
  cbn [mbind list_bind]. rewrite length_app, IH. destruct root as [r | name].
  - cbn [root_files]. unfold openapiFiles.
    destruct (length (http_Services (api_HTTP (root_API r))) =? 0) eqn:Hs.
    + rewrite filter_cons_False; [done|]. cbn [has_services]. rewrite Hs. by intros [].
    + rewrite filter_cons_True; [cbn; lia|]. cbn [has_services]. by rewrite Hs.
  - rewrite filter_cons_False; [done|]. by intros [].
Qed.

(** X5: [Generate] never returns an error. It keeps the files it is given
    and appends, in the order of the roots, the JSON file and the YAML file
    of every design root that has an HTTP service, and nothing for the other
    roots; the number of files grows by twice the number of such roots, and
    generating for two lists of roots one after the other is generating for
    the first and then for the second. *)
Theorem Generate_appends `{External} (range : MapRange) (genpkg : string)
    (roots roots' : list Root) (files : list File) :
  Generate range genpkg roots files = (files ++ (roots ≫= root_files range), None) ∧
  length (Generate range genpkg roots files).1 =
    length files + 2 * length (filter has_services roots) ∧
  Generate range genpkg (roots ++ roots') files =
    Generate range genpkg roots' (Generate range genpkg roots files).1.
Proof.
  unfold Generate. rewrite !Generate_loop_app. cbn [fst]. split; [done|]. split.
  - by rewrite length_app, root_files_length.
  - by rewrite bind_app, app_assoc.
Qed.

(** ** The registry of security schemes, continued *)

Lemma scheme_functions_spec kind define :
  (kind, define) ∈ scheme_functions → define = defineScheme kind.
Proof.
  unfold scheme_functions. intros Hin.
  repeat (apply elem_of_cons in Hin as [[= -> ->] | Hin]; [reflexivity|]).
  by apply elem_of_nil in Hin.
Qed.

Lemma redefined_loop_spec name schemes st :
  redefined_loop name schemes st =
  if decide (name ∈ SchemeName <$> schemes)
  then (true, ReportError "cannot redefine security scheme with name %q" [name] st)
  else (false, st).
Proof.
  destruct (decide (name ∈ SchemeName <$> schemes)) as [Hin | Hnin].
  - apply redefined_loop_registered. apply list_elem_of_fmap in Hin as (s & -> & Hs).
    by exists s.
  - apply redefined_loop_fresh. intros s Hs Hname. apply Hnin.
    apply list_elem_of_fmap. by exists s.
Qed.

(** X6: [securitySchemeRedefined] answers true exactly when a scheme of the
    name is registered. Then it records one error, that of the redefinition
    with the name, however many schemes there are; otherwise it leaves the
    design as it is. It never changes the registry. *)
Theorem securitySchemeRedefined_spec (name : string) (st : Design) :
  securitySchemeRedefined name st =
    (if decide (name ∈ scheme_names st)
     then (true, add_errors [redefinition_error name] st)
     else (false, st)) ∧
  Schemes (securitySchemeRedefined name st).2 = Schemes st.
Proof.
  unfold securitySchemeRedefined, scheme_names. rewrite redefined_loop_spec.
  by destruct (decide (name ∈ SchemeName <$> Schemes st)).
Qed.

Lemma run_call_scheme c d st :
  run_call c (EvScheme d) st =
  (EvScheme (extend_scheme d (call_scopes c) (call_flows (scheme_Kind d) c)),
   add_errors (call_errors (scheme_Kind d) c) st).
Proof.
  destruct d as [kind name descr scopes flows], st as [schemes errors current].
  unfold extend_scheme, add_errors, call_flows, call_errors.
  destruct c as [a t r | a r | t r | t r | n desc]; cbn;
    try (destruct kind; cbn; by rewrite ?app_nil_r).
  destruct desc as [|d0 [|d1 desc]]; cbn; destruct (isOAuth2 kind); by rewrite ?app_nil_r.
Qed.

Lemma dsl_calls_scheme calls d st :
  dsl_calls (run_call <$> calls) (EvScheme d) st =
  (EvScheme (extend_scheme d (calls ≫= call_scopes) (calls ≫= call_flows (scheme_Kind d))),
   add_errors (calls ≫= call_errors (scheme_Kind d)) st).
Proof.
  revert d st. induction calls as [|c calls IH]; intros d st.
  - destruct d, st. unfold extend_scheme, add_errors. cbn. by rewrite !app_nil_r.
  - cbn [fmap list_fmap dsl_calls mbind list_bind]. rewrite run_call_scheme, IH.
    unfold extend_scheme, add_errors. cbn. by rewrite !app_assoc.
Qed.

Lemma scheme_body_spec calls d st :
  scheme_body calls d st =
  (extend_scheme d (calls ≫= call_scopes) (calls ≫= call_flows (scheme_Kind d)),
   add_errors (calls ≫= call_errors (scheme_Kind d)) st).
Proof. unfold scheme_body, scheme_dsl. by rewrite dsl_calls_scheme. Qed.

Lemma scheme_body_well_behaved calls : well_behaved (scheme_body calls).
Proof. intros d st. by rewrite scheme_body_spec. Qed.

(** X7: a definition of a scheme whose DSL function is made of calls of the
    flow functions and of [Scope], at the top level and under a name not yet
    registered. If every flow is given to an OAuth2 scheme and every scope
    has at most one description, the scheme is registered last, with its
    flows and its scopes in the order of the calls, a scope without
    description getting the description "no description", and no error is
    recorded. Otherwise no scheme is registered and the definition returns no
    scheme; the errors of the calls are recorded, one for each flow given to a
    scheme that is not an OAuth2 scheme and one for each scope with more than
    one description. *)
Theorem scheme_body_defined kind define (name : string) (calls : list DSLCall) (st : Design) :
  (kind, define) ∈ scheme_functions →
  Current st = TopExpr →
  name ∉ scheme_names st →
  define name [scheme_body calls] st =
    if decide (calls ≫= call_errors kind = [])
    then let expr := extend_scheme (new_scheme kind name)
                       (calls ≫= call_scopes) (calls ≫= call_flows kind) in
         (Some expr, {| Schemes := Schemes st ++ [expr];
                        Errors := Errors st; Current := TopExpr |})
    else (None, {| Schemes := Schemes st;
                   Errors := Errors st ++ (calls ≫= call_errors kind);
                   Current := TopExpr |}).
Proof.
  intros ->%scheme_functions_spec Htop Hfresh.
  unfold defineScheme, securitySchemeRedefined. rewrite Htop. cbn [isTopExpr negb].
  rewrite redefined_loop_spec. fold (scheme_names st).
  rewrite decide_False by done. unfold Execute. rewrite scheme_body_spec.
  cbn [scheme_Kind add_errors Errors Schemes Current fst snd]. rewrite Htop.
  destruct (decide (calls ≫= call_errors kind = [])) as [-> | Herr].
  - rewrite app_nil_r, Nat.leb_refl. done.
  - rewrite length_app.
    destruct (calls ≫= call_errors kind) as [|err errs]; [done|].
    cbn [length]. by rewrite (proj2 (Nat.leb_gt _ _)) by lia.
Qed.

Lemma scheme_body_defined_witness :
  OAuth2Security "googAuth" [scheme_body googAuth_calls] basic_design =
    (Some googAuth, {| Schemes := [basic_scheme; googAuth]; Errors := [];
                       Current := TopExpr |}) ∧
  JWTSecurity "jwt" [scheme_body googAuth_calls] basic_design =
    (None, {| Schemes := [basic_scheme]; Errors := [flow_error]; Current := TopExpr |}).
Proof.
  assert (Hfresh : ∀ name, name ≠ "basic" → name ∉ scheme_names basic_design).
  { intros name Hname Hin. apply list_elem_of_singleton in Hin. by destruct Hname. }
  split.
  - apply (scheme_body_defined OAuth2Kind OAuth2Security "googAuth" googAuth_calls
             basic_design).
    + apply list_elem_of_further, list_elem_of_further, list_elem_of_here.
    + reflexivity.
    + by apply Hfresh.
  - apply (scheme_body_defined JWTKind JWTSecurity "jwt" googAuth_calls basic_design).
    + do 3 apply list_elem_of_further. apply list_elem_of_here.
    + reflexivity.
    + by apply Hfresh.
Defined.

Lemma scheme_names_app st expr (schemes : list SchemeExpr) :
  Schemes st = schemes ++ [expr] → scheme_names st = (SchemeName <$> schemes) ++ [SchemeName expr].
Proof. unfold scheme_names. intros ->. by rewrite fmap_app. Qed.

(** What a definition does to the registry, whatever its outcome. *)
Lemma defineScheme_registry kind name dsl st :
  Forall well_behaved dsl →
  ((defineScheme kind name dsl st).1 = None ∧
   Schemes (defineScheme kind name dsl st).2 = Schemes st) ∨
  (∃ expr, (defineScheme kind name dsl st).1 = Some expr ∧
           Schemes (defineScheme kind name dsl st).2 = Schemes st ++ [expr] ∧
           SchemeName expr = name ∧ scheme_Kind expr = kind ∧
           Current st = TopExpr ∧ name ∉ scheme_names st).
Proof.
  intros Hdsl. unfold defineScheme, securitySchemeRedefined.
  destruct (Current st) eqn:Hcur; cbn [isTopExpr negb]; try (by left).
  rewrite redefined_loop_spec. fold (scheme_names st).
  destruct (decide (name ∈ scheme_names st)) as [Hin | Hfresh]; [by left|].
  destruct dsl as [|fn dsl].
  - right. eexists. by repeat split.
  - apply Forall_cons in Hdsl as [Hfn _]. unfold Execute.
    match goal with |- context [fn ?d ?s] =>
      specialize (Hfn d s); destruct (fn d s) as [def' st'] end.
    destruct Hfn as (Hname & Hkind & Hschemes). cbn in Hname, Hkind, Hschemes.
    destruct (length (Errors st') <=? length (Errors st)); cbn.
    + right. exists def'. by rewrite Hschemes.
    + left. by rewrite Hschemes.
Qed.

(** X8: the registry only grows by the scheme a definition returns. Each of
    the four functions either returns no scheme and leaves the registry as
    it is, or returns a scheme of its kind and of the given name and appends
    it to the registry; the second happens only at the top level and for a
    name that is not registered. So a registry whose names are pairwise
    distinct stays so. The DSL function is any function that keeps the name
    and the kind of the scheme and the registry. *)
Theorem scheme_registry_invariant kind define (name : string) (dsl : list SchemeDSL)
    (st : Design) :
  (kind, define) ∈ scheme_functions →
  Forall well_behaved dsl →
  (((define name dsl st).1 = None ∧ Schemes (define name dsl st).2 = Schemes st) ∨
   (∃ expr, (define name dsl st).1 = Some expr ∧
            Schemes (define name dsl st).2 = Schemes st ++ [expr] ∧
            SchemeName expr = name ∧ scheme_Kind expr = kind ∧
            Current st = TopExpr ∧ name ∉ scheme_names st)) ∧
  (NoDup (scheme_names st) → NoDup (scheme_names (define name dsl st).2)).
Proof.
  intros ->%scheme_functions_spec Hdsl.
  pose proof (defineScheme_registry kind name dsl st Hdsl) as Hreg.
  split; [done|]. intros Hnd.
  destruct Hreg as [[_ Hs] | (expr & _ & Hs & Hname & _ & _ & Hfresh)].
  - unfold scheme_names. by rewrite Hs.
  - rewrite (scheme_names_app _ _ _ Hs), Hname.
    apply NoDup_app. split; [done|]. split; [|apply NoDup_singleton].
    intros n Hn Hn'%list_elem_of_singleton. by subst.
Qed.

Lemma scheme_registry_invariant_witness :
  NoDup (scheme_names basic_design) ∧
  NoDup (scheme_names (OAuth2Security "googAuth" [scheme_body googAuth_calls] basic_design).2).
Proof.
  assert (Hnd : NoDup (scheme_names basic_design)) by apply NoDup_singleton.
  split; [exact Hnd|].
  apply (scheme_registry_invariant OAuth2Kind OAuth2Security "googAuth"
           [scheme_body googAuth_calls] basic_design).
  - apply list_elem_of_further, list_elem_of_further, list_elem_of_here.
  - apply Forall_cons. split; [apply scheme_body_well_behaved | apply Forall_nil_2].
  - exact Hnd.
Defined.

Lemma find_scheme_fresh n (schemes : list SchemeExpr) :
  n ∉ SchemeName <$> schemes → find_scheme n schemes = None.
Proof.
  induction schemes as [|s schemes IH]; [done|]. cbn.
  rewrite not_elem_of_cons. intros [Hne Hn].
  destruct (String.eqb_spec (SchemeName s) n); [congruence|]. by apply IH.
Qed.

Lemma find_scheme_registered n (schemes : list SchemeExpr) :
  n ∈ SchemeName <$> schemes →
  ∃ s, find_scheme n schemes = Some s ∧ s ∈ schemes ∧ SchemeName s = n.
Proof.
  induction schemes as [|s schemes IH]; cbn; [by intros ?%elem_of_nil|].
  destruct (String.eqb_spec (SchemeName s) n) as [Heq | Hne].
  - intros _. exists s. split; [done|]. split; [apply list_elem_of_here | done].
  - intros [?|Hin]%elem_of_cons; [congruence|].
    destruct (IH Hin) as (s' & Hfind & Hs' & Hn). exists s'.
    split; [done|]. split; [by apply list_elem_of_further | done].
Qed.

Lemma find_scheme_app n (schemes : list SchemeExpr) expr :
  find_scheme n (schemes ++ [expr]) =
  match find_scheme n schemes with
  | Some s => Some s
  | None => if String.eqb (SchemeName expr) n then Some expr else None
  end.
Proof.
  induction schemes as [|s schemes IH]; [done|]. cbn.
  by destruct (String.eqb (SchemeName s) n).
Qed.

(** X9: a scheme that has been defined is the one [Security] finds under its
    name: after a definition that returns a scheme, the lookup of the name
    in the registry gives that scheme, and the lookup of any other name
    gives what it gave before. *)
Theorem defined_scheme_found kind define (name : string) (dsl : list SchemeDSL)
    (st : Design) (expr : SchemeExpr) :
  (kind, define) ∈ scheme_functions →
  Forall well_behaved dsl →
  (define name dsl st).1 = Some expr →
  find_scheme name (Schemes (define name dsl st).2) = Some expr ∧
  ∀ n, n ≠ name →
    find_scheme n (Schemes (define name dsl st).2) = find_scheme n (Schemes st).
Proof.
  intros ->%scheme_functions_spec Hdsl Hsome.
  destruct (defineScheme_registry kind name dsl st Hdsl)
    as [[Hnone _] | (expr' & Hexpr & Hs & Hname & _ & _ & Hfresh)]; [congruence|].
  assert (expr' = expr) as -> by congruence.
  rewrite Hs. split.
  - rewrite find_scheme_app, find_scheme_fresh by done.
    by rewrite Hname, String.eqb_refl.
  - intros n Hn. rewrite find_scheme_app. destruct (find_scheme n (Schemes st)); [done|].
    rewrite Hname. by destruct (String.eqb_spec name n).
Qed.

Lemma defined_scheme_found_witness :
  find_scheme "googAuth"
    (Schemes (OAuth2Security "googAuth" [scheme_body googAuth_calls] basic_design).2) =
  Some googAuth.
Proof.
  apply (defined_scheme_found OAuth2Kind OAuth2Security "googAuth"
           [scheme_body googAuth_calls] basic_design googAuth).
  - apply list_elem_of_further, list_elem_of_further, list_elem_of_here.
  - apply Forall_cons. split; [apply scheme_body_well_behaved | apply Forall_nil_2].
  - reflexivity.
Defined.

(** ** Security requirements *)

Lemma resolvable_resolved st arg :
  resolvable st arg = true →
  ∃ s, resolved st arg = [s] ∧
       match arg with
       | NameArg val => find_scheme val (Schemes st) = Some s
       | SchemeArg val => s = val
       | OtherArg _ _ => False
       end.
Proof.
  destruct arg as [val | val | printed type_]; cbn; [|by eexists|done].
  intros Hin%bool_decide_eq_true.
  destruct (find_scheme_registered _ _ Hin) as (s & Hfind & _). exists s.
  by rewrite Hfind.
Qed.

Lemma resolve_schemes_all args st :
  Forall (λ arg, resolvable st arg = true) args →
  resolve_schemes args st = inl (args ≫= resolved st).
Proof.
  induction 1 as [|arg args Harg _ IH]; [done|].
  cbn [resolve_schemes mbind list_bind]. rewrite IH.
  destruct (resolvable_resolved _ _ Harg) as (s & -> & Hs).
  destruct arg as [val | val | printed type_]; [by rewrite Hs | by subst | done].
Qed.

Lemma resolve_schemes_first good bad rest st :
  Forall (λ arg, resolvable st arg = true) good →
  resolvable st bad = false →
  resolve_schemes (good ++ bad :: rest) st = inr (add_errors (argument_error bad) st).
Proof.
  intros Hgood Hbad. induction Hgood as [|arg args Harg _ IH].
  - cbn. destruct bad as [val | val | printed type_]; [|done|done].
    cbn in Hbad. apply bool_decide_eq_false in Hbad.
    by rewrite find_scheme_fresh.
  - cbn [app resolve_schemes]. rewrite IH.
    destruct (resolvable_resolved _ _ Harg) as (s & _ & Hs).
    destruct arg as [val | val | printed type_]; [by rewrite Hs | done | done].
Qed.

(** X10: [Security] with an argument that is not a scheme, or is a name
    under which no scheme is registered, records nothing. It records one
    error, for the first such argument, that names the scheme not found or
    the argument of a wrong type, and returns without running the DSL
    function; the three lists of requirements and the registry stay as they
    are, in every context. Called without any argument, [Security] panics. *)
Theorem Security_rejects (good rest : list SecurityArg) (bad : SecurityArg)
    (dsl : option SecurityDSL) (root : SecurityRoot) :
  (Forall (λ arg, resolvable (root_Design root) arg = true) good →
   resolvable (root_Design root) bad = false →
   Security (good ++ bad :: rest) dsl root =
     Returned (with_Design (add_errors (argument_error bad) (root_Design root)) root)) ∧
  Security [] None root = Panicked "runtime error: index out of range [-1]".
Proof.
  split; [|done]. intros Hgood Hbad. unfold Security.
  rewrite resolve_schemes_first by done.
  by destruct good, dsl.
Qed.

Lemma Security_rejects_witness :
  Security [SchemeArg basic_scheme; NameArg "oauth2"; NameArg "googAuth"] None
           (auth_root CurrentAPI) =
  Returned {| root_Design :=
                {| Schemes := [basic_scheme; googAuth];
                   Errors := [ReportedError "security scheme %q not found" ["oauth2"]];
                   Current := CurrentAPI |};
              APISecurity := []; ServiceSecurity := []; EndpointSecurity := [] |}.
Proof.
  apply (proj1 (Security_rejects [SchemeArg basic_scheme] [NameArg "googAuth"]
                  (NameArg "oauth2") None (auth_root CurrentAPI))).
  - apply Forall_cons. split; [reflexivity | apply Forall_nil_2].
  - reflexivity.
Defined.

Lemma run_call_security c d st :
  run_call c (EvSecurity d) st =
  (EvSecurity {| sec_Schemes := sec_Schemes d;
                 sec_Scopes := sec_Scopes d ++ required_scopes c |},
   add_errors (requirement_errors c) st).
Proof.
  destruct d as [schemes scopes], st as [regs errors current]. unfold add_errors.
  destruct c as [a t r | a r | t r | t r | n [|d0 desc]]; cbn; by rewrite ?app_nil_r.
Qed.

Lemma requirement_body_spec calls d st :
  requirement_body calls d st =
  ({| sec_Schemes := sec_Schemes d;
      sec_Scopes := sec_Scopes d ++ (calls ≫= required_scopes) |},
   add_errors (calls ≫= requirement_errors) st).
Proof.
  unfold requirement_body, security_dsl.
  assert (Hcalls : dsl_calls (run_call <$> calls) (EvSecurity d) st =
    (EvSecurity {| sec_Schemes := sec_Schemes d;
                   sec_Scopes := sec_Scopes d ++ (calls ≫= required_scopes) |},
     add_errors (calls ≫= requirement_errors) st)).
  { revert d st. induction calls as [|c calls IH]; intros d st.
    - destruct d, st. unfold add_errors. cbn. by rewrite !app_nil_r.
    - cbn [fmap list_fmap dsl_calls mbind list_bind]. rewrite run_call_security, IH.
      unfold add_errors. cbn. by rewrite !app_assoc. }
  by rewrite Hcalls.
Qed.

(** What [Security] does once its arguments are resolved, with a DSL
    function made of calls or without one. *)
Lemma Security_resolved args (body : option (list DSLCall)) root :
  let st := root_Design root in
  let errs := default [] body ≫= requirement_errors in
  let security := {| sec_Schemes := args ≫= resolved st;
                     sec_Scopes := default [] body ≫= required_scopes |} in
  Forall (λ arg, resolvable st arg = true) args →
  args ≠ [] ∨ is_Some body →
  Security args (requirement_body <$> body) root =
  Returned
    (if decide (errs = []) then
       match Current st with
       | CurrentMethod actual =>
           {| root_Design := st; APISecurity := APISecurity root;
              ServiceSecurity := ServiceSecurity root;
              EndpointSecurity :=
                EndpointSecurity root ++
                [ {| esec_SecurityExpr := security; esec_Method := actual |} ] |}
       | CurrentService actual =>
           {| root_Design := st; APISecurity := APISecurity root;
              ServiceSecurity :=
                ServiceSecurity root ++
                [ {| ssec_SecurityExpr := security; ssec_Service := actual |} ];
              EndpointSecurity := EndpointSecurity root |}
       | CurrentAPI =>
           {| root_Design := st; APISecurity := APISecurity root ++ [security];
              ServiceSecurity := ServiceSecurity root;
              EndpointSecurity := EndpointSecurity root |}
       | _ => with_Design (IncompatibleDSL st) root
       end
     else with_Design (add_errors errs st) root).
Proof.
  intros st errs security Hargs Hsome. unfold Security.
  assert (Hmatch : ∀ (A : Type) (x y : A),
    match args, requirement_body <$> body with [], None => x | _, _ => y end = y).
  { intros A x y. destruct args, body; try done. by destruct Hsome as [? | [? [=]]]. }
  rewrite Hmatch, resolve_schemes_all by done. fold st.
  destruct body as [calls|]; cbn [fmap option_fmap option_map default from_option id] in *.
  - unfold ExecuteSecurity. rewrite requirement_body_spec.
    cbn [sec_Schemes sec_Scopes add_errors Errors Schemes Current app fst snd].
    fold errs. destruct (decide (errs = [])) as [-> | Herr].
    + rewrite app_nil_r, Nat.leb_refl. cbn [negb Current].
      destruct st as [regs errors current]. cbn. by destruct current.
    + rewrite length_app. destruct errs as [|err errs']; [done|].
      cbn [length]. rewrite (proj2 (Nat.leb_gt _ _)) by lia. done.
  - cbn [negb]. subst errs. cbn. by destruct (Current st).
Qed.

(** The three lists and the design after a call of [Security] that records. *)
Lemma Security_lists (args : list SecurityArg) (body : option (list DSLCall))
    (root : SecurityRoot) :
  let st := root_Design root in
  let security := {| sec_Schemes := args ≫= resolved st;
                     sec_Scopes := default [] body ≫= required_scopes |} in
  Forall (λ arg, resolvable st arg = true) args →
  args ≠ [] ∨ is_Some body →
  default [] body ≫= requirement_errors = [] →
  ∃ root', Security args (requirement_body <$> body) root = Returned root' ∧
    APISecurity root' =
      APISecurity root ++ match Current st with CurrentAPI => [security] | _ => [] end ∧
    ServiceSecurity root' =
      ServiceSecurity root ++
      match Current st with
      | CurrentService actual => [ {| ssec_SecurityExpr := security; ssec_Service := actual |} ]
      | _ => []
      end ∧
    EndpointSecurity root' =
      EndpointSecurity root ++
      match Current st with
      | CurrentMethod actual => [ {| esec_SecurityExpr := security; esec_Method := actual |} ]
      | _ => []
      end ∧
    root_Design root' =
      match Current st with
      | CurrentAPI | CurrentService _ | CurrentMethod _ => st
      | _ => IncompatibleDSL st
      end.
Proof.
  intros st security Hargs Hsome Herrs. eexists. split.
  - rewrite (Security_resolved args body root Hargs Hsome). fold st.
    rewrite decide_True by done. reflexivity.
  - fold security. by destruct (Current st); cbn; rewrite ?app_nil_r.
Qed.

(** X11: [Security] records a requirement when all its arguments are schemes
    or names of registered schemes and its DSL function, if any, only lists
    scopes without description. The requirement holds the schemes in the
    order of the arguments, each name standing for the scheme registered
    under it, and the scopes in the order of the calls; the scopes are not
    checked against those the schemes define. It is appended to the list of
    the current expression, an API, a service or a method, and to no other;
    the design of the schemes stays as it is. In any other context nothing is
    appended and the error of an incompatible DSL is recorded. *)
Theorem Security_records (args : list SecurityArg) (body : option (list DSLCall))
    (root : SecurityRoot) :
  let st := root_Design root in
  let security := {| sec_Schemes := args ≫= resolved st;
                     sec_Scopes := default [] body ≫= required_scopes |} in
  Forall (λ arg, resolvable st arg = true) args →
  args ≠ [] ∨ is_Some body →
  default [] body ≫= requirement_errors = [] →
  ∃ root', Security args (requirement_body <$> body) root = Returned root' ∧
    APISecurity root' =
      APISecurity root ++ match Current st with CurrentAPI => [security] | _ => [] end ∧
    ServiceSecurity root' =
      ServiceSecurity root ++
      match Current st with
      | CurrentService actual => [ {| ssec_SecurityExpr := security; ssec_Service := actual |} ]
      | _ => []
      end ∧
    EndpointSecurity root' =
      EndpointSecurity root ++
      match Current st with
      | CurrentMethod actual => [ {| esec_SecurityExpr := security; esec_Method := actual |} ]
      | _ => []
      end ∧
    root_Design root' =
      match Current st with
      | CurrentAPI | CurrentService _ | CurrentMethod _ => st
      | _ => IncompatibleDSL st
      end.
Proof. apply Security_lists. Qed.

Lemma Security_records_witness :
  ∃ root',
    Security [SchemeArg basic_scheme; NameArg "googAuth"]
             (Some (requirement_body [CallScope "api:write" []; CallScope "admin" []]))
             (auth_root (CurrentMethod "add")) = Returned root' ∧
    EndpointSecurity root' =
      [ {| esec_SecurityExpr := {| sec_Schemes := [basic_scheme; googAuth];
                                   sec_Scopes := ["api:write"; "admin"] |};
           esec_Method := "add" |} ] ∧
    APISecurity root' = [] ∧ ServiceSecurity root' = [].
Proof.
  destruct (Security_records [SchemeArg basic_scheme; NameArg "googAuth"]
              (Some [CallScope "api:write" []; CallScope "admin" []])
              (auth_root (CurrentMethod "add")))
    as (root' & Hroot & Ha & Hs & He & _).
  - apply Forall_cons. split; [reflexivity|].
    apply Forall_cons. split; [reflexivity | apply Forall_nil_2].
  - left. discriminate.
  - reflexivity.
  - exists root'. split; [exact Hroot|]. split; [exact He|]. split; [exact Ha | exact Hs].
Defined.

(** X12: a requirement whose DSL function gives a description to a scope, or
    calls a flow function, is not recorded, in any context: [Security]
    records the errors of those calls, one for each, and appends nothing. *)
Theorem Security_body_rejected (args : list SecurityArg) (calls : list DSLCall)
    (root : SecurityRoot) :
  Forall (λ arg, resolvable (root_Design root) arg = true) args →
  calls ≫= requirement_errors ≠ [] →
  Security args (Some (requirement_body calls)) root =
    Returned (with_Design (add_errors (calls ≫= requirement_errors) (root_Design root)) root).
Proof.
  intros Hargs Herrs.
  change (Some (requirement_body calls)) with (requirement_body <$> Some calls).
  rewrite (Security_resolved args (Some calls) root Hargs) by (right; by eexists).
  cbn [default from_option id]. by rewrite decide_False.
Qed.

Lemma Security_body_rejected_witness :
  Security [NameArg "googAuth"]
           (Some (requirement_body [CallScope "api:read" ["Read access"]]))
           (auth_root CurrentAPI) =
  Returned {| root_Design := {| Schemes := [basic_scheme; googAuth];
                                Errors := [scope_error]; Current := CurrentAPI |};
              APISecurity := []; ServiceSecurity := []; EndpointSecurity := [] |}.
Proof.
  apply (Security_body_rejected [NameArg "googAuth"] [CallScope "api:read" ["Read access"]]
           (auth_root CurrentAPI)).
  - apply Forall_cons. split; [reflexivity | apply Forall_nil_2].
  - discriminate.
Defined.

(** X13: [NoSecurity] only appends. In a method it appends to the
    requirements of endpoints the requirement made of the scheme of no kind
    alone, for that method; anywhere else it records the error of an
    incompatible DSL. It leaves the requirements of the API and of the
    services, the requirements of endpoints recorded before and the registry
    as they are: a requirement that [Security] recorded for the method
    before stays in the list, followed by that of [NoSecurity]. *)
Theorem NoSecurity_appends (root : SecurityRoot) :
  let st := root_Design root in
  (APISecurity (NoSecurity root) = APISecurity root ∧
   ServiceSecurity (NoSecurity root) = ServiceSecurity root ∧
   Schemes (root_Design (NoSecurity root)) = Schemes st ∧
   EndpointSecurity (NoSecurity root) =
     EndpointSecurity root ++
     match Current st with
     | CurrentMethod actual => [ {| esec_SecurityExpr := no_security; esec_Method := actual |} ]
     | _ => []
     end ∧
   Errors (root_Design (NoSecurity root)) =
     Errors st ++ match Current st with
                  | CurrentMethod _ => []
                  | _ => [IncompatibleDSLError]
                  end) ∧
  ∀ (args : list SecurityArg) (body : option (list DSLCall)) (actual : string),
    Current st = CurrentMethod actual →
    Forall (λ arg, resolvable st arg = true) args →
    args ≠ [] ∨ is_Some body →
    default [] body ≫= requirement_errors = [] →
    ∃ root', Security args (requirement_body <$> body) root = Returned root' ∧
      EndpointSecurity (NoSecurity root') =
        EndpointSecurity root ++
        [ {| esec_SecurityExpr := {| sec_Schemes := args ≫= resolved st;
                                     sec_Scopes := default [] body ≫= required_scopes |};
             esec_Method := actual |};
          {| esec_SecurityExpr := no_security; esec_Method := actual |} ].
Proof.
  intros st. split.
  - unfold NoSecurity. fold st. destruct (Current st); cbn; by rewrite ?app_nil_r.
  - intros args body actual Hcur Hargs Hsome Herrs.
    destruct (Security_lists args body root Hargs Hsome Herrs)
      as (root' & Hroot & _ & _ & He & Hd).
    exists root'. split; [done|]. fold st in He, Hd. rewrite Hcur in He, Hd.
    unfold NoSecurity. rewrite Hd, Hcur. cbn [EndpointSecurity]. rewrite He.
    by rewrite <- app_assoc.
Qed.

Lemma NoSecurity_appends_witness :
  ∃ root', Security [NameArg "googAuth"] None (auth_root (CurrentMethod "add")) =
             Returned root' ∧
           EndpointSecurity (NoSecurity root') =
             [ {| esec_SecurityExpr := {| sec_Schemes := [googAuth]; sec_Scopes := [] |};
                  esec_Method := "add" |};
               {| esec_SecurityExpr := no_security; esec_Method := "add" |} ].
Proof.
  apply (proj2 (NoSecurity_appends (auth_root (CurrentMethod "add")))
           [NameArg "googAuth"] None "add").
  - reflexivity.
  - apply Forall_cons. split; [reflexivity | apply Forall_nil_2].
  - left. discriminate.
  - reflexivity.
Defined.

(** ** The attributes that carry credentials, continued *)

(** X14: [useDSL] panics on an empty list of arguments, the index of the last
    argument being out of range. When the last argument is a DSL function it
    replaces it by the function that runs it and then the given one, keeping
    the number of arguments; otherwise it appends the given function. The
    arguments before the last are kept as they are. *)
Theorem useDSL_args_spec (pre : list AttributeArg) (d : AttributeDSL) :
  useDSL_args [] d = Panicked "runtime error: index out of range [-1]" ∧
  (∀ ds, useDSL_args (pre ++ [FuncArg ds]) d =
         Returned (pre ++ [FuncArg (λ a, d (ds a))])) ∧
  (∀ printed, useDSL_args (pre ++ [ValueArg printed]) d =
              Returned (pre ++ [ValueArg printed; FuncArg d])).
Proof.
  split; [done|]. unfold useDSL_args. split.
  - intros ds. rewrite last_snoc, length_app. cbn [length].
    replace (length pre + 1 - 1) with (length pre) by lia.
    by rewrite take_app_length.
  - intros printed. rewrite last_snoc. by rewrite <- app_assoc.
Qed.

Lemma prefix_append (s t : string) : String.prefix s (s +:+ t) = true.
Proof.
  induction s as [|c s IH]; [by destruct t|].
  change (String c s +:+ t) with (String c (s +:+ t)). cbn [String.prefix].
  by destruct (Ascii.ascii_dec c c).
Qed.

Lemma add_meta_keys name values meta :
  name ∈ (add_meta name values meta).*1 ∧
  ∀ k, k ∈ meta.*1 → k ∈ (add_meta name values meta).*1.
Proof.
  induction meta as [|[k vs] meta [IHin IHkeep]]; cbn.
  - split; [apply list_elem_of_here | by intros k ?%elem_of_nil].
  - destruct (String.eqb_spec k name) as [-> | Hne]; cbn.
    + split; [apply list_elem_of_here | done].
    + split; [by apply list_elem_of_further|].
      intros k' [-> | Hk']%elem_of_cons;
        [apply list_elem_of_here | by apply list_elem_of_further, IHkeep].
Qed.

Lemma security_role_keys (a : AttributeExpr) :
  security_role a = true ↔ ∃ k, k ∈ meta_keys a ∧ security_key k = true.
Proof.
  unfold security_role, meta_keys. rewrite existsb_exists. split.
  - intros ([k vs] & Hin%list_elem_of_In & Hk). exists k. split; [|done].
    apply list_elem_of_fmap. by exists (k, vs).
  - intros (k & ([k' vs] & -> & Hin)%list_elem_of_fmap & Hk).
    exists (k', vs). split; [by apply list_elem_of_In | done].
Qed.

(** X15: an attribute defined with [Username], [Password], [APIKey],
    [AccessToken] or [Token] has the given name and carries the key of its
    security role in its metadata, whatever DSL function the caller gives;
    the keys that DSL function puts in the metadata are kept. An attribute
    defined with [Attribute] and without DSL function carries no security
    role. *)
Theorem credential_attributes_tagged (scheme name : string) (type : DataType)
    (description : string) (fn : option AttributeDSL) :
  Forall (λ tagged : string * NamedAttributeExpr,
            nat_Name tagged.2 = name ∧
            tagged.1 ∈ meta_keys (nat_Attribute tagged.2) ∧
            security_role (nat_Attribute tagged.2) = true ∧
            ∀ k, k ∈ meta_keys (plain_attribute type description fn) →
                 k ∈ meta_keys (nat_Attribute tagged.2))
    [("security:username", Username name type description fn);
     ("security:password", Password name type description fn);
     ("security:apikey:" +:+ scheme, APIKey scheme name type description fn);
     ("security:accesstoken", AccessToken name type description fn);
     ("security:token", Token name type description fn)] ∧
  security_role (nat_Attribute (Attribute name type description None)) = false.
Proof.
  assert (Htag : ∀ key values, security_key key = true →
    let tagged := Attribute name type description (useDSL fn (Metadata key values)) in
    nat_Name tagged = name ∧
    key ∈ meta_keys (nat_Attribute tagged) ∧
    security_role (nat_Attribute tagged) = true ∧
    ∀ k, k ∈ meta_keys (plain_attribute type description fn) →
         k ∈ meta_keys (nat_Attribute tagged)).
  { intros key values Hkey tagged.
    assert (Hmeta : meta_keys (nat_Attribute tagged) =
      (add_meta key values (attr_Meta (plain_attribute type description fn))).*1).
    { unfold tagged, plain_attribute, meta_keys. by destruct fn. }
    split; [done|]. rewrite security_role_keys, !Hmeta.
    destruct (add_meta_keys key values (attr_Meta (plain_attribute type description fn)))
      as [Hin Hkeep].
    split; [done|]. split; [by exists key | done]. }
  split; [|done].
  repeat (apply Forall_cons; split; [apply Htag|]); [..|by apply Forall_nil]; try done.
  cbn [fst]. unfold security_key. rewrite prefix_append.
  by rewrite !orb_true_r.
Qed.

(** ** Operations and path parameters *)

Lemma append_hash_inj (s1 s2 m1 m2 : string) :
  occurs "#" s1 = false → occurs "#" s2 = false →
  s1 +:+ "#" +:+ m1 = s2 +:+ "#" +:+ m2 → s1 = s2 ∧ m1 = m2.
Proof.
  revert s2. induction s1 as [|c1 s1 IH]; intros [|c2 s2]; cbn [occurs].
  - intros _ _ [=]. done.
  - intros _ [Hc _]%orb_false_elim [= Heq _]. subst c2. by rewrite Ascii.eqb_refl in Hc.
  - intros [Hc _]%orb_false_elim _ [= Heq _]. subst c1. by rewrite Ascii.eqb_refl in Hc.
  - intros [_ H1]%orb_false_elim [_ H2]%orb_false_elim [= -> Heq].
    destruct (IH s2 H1 H2 Heq) as [-> ->]. done.
Qed.

(** X16: the identifier of an operation is the name of the service, a hash
    sign and the name of the method. When the names of two services hold no
    hash sign, operations with the same identifier belong to services of the
    same name and to methods of the same name; without that condition two
    different pairs of names can give one identifier. *)
Theorem operation_id_unique `{External} (s1 s2 : HTTPServiceExpr)
    (e1 e2 : HTTPEndpointExpr) (r1 r2 : RouteExpr) :
  (occurs "#" (svc_Name s1) = false → occurs "#" (svc_Name s2) = false →
   Op_OperationID (operation s1 e1 r1) = Op_OperationID (operation s2 e2 r2) →
   svc_Name s1 = svc_Name s2 ∧ ep_Name e1 = ep_Name e2) ∧
  (∃ e e' r r',
     (svc_Name hash_service, ep_Name e) ≠ (svc_Name plain_service, ep_Name e') ∧
     Op_OperationID (operation hash_service e r) =
     Op_OperationID (operation plain_service e' r')).
Proof.
  split.
  - cbn [operation Op_OperationID]. apply append_hash_inj.
  - exists (endpoint_at "c" "GET" "/c"), (endpoint_at "b#c" "GET" "/c"), get_x, get_x.
    split; [discriminate | reflexivity].
Qed.

Lemma operation_id_unique_witness :
  occurs "#" (svc_Name calc_service) = false ∧
  Op_OperationID (operation (H := goa) calc_service add_endpoint add_route) = "calc#add" ∧
  svc_Name calc_service = "calc" ∧ ep_Name add_endpoint = "add".
Proof.
  split; [reflexivity|]. split; [reflexivity|].
  apply (proj1 (operation_id_unique (H := goa) calc_service calc_service
                  add_endpoint add_endpoint add_route add_route));
    reflexivity.
Defined.

Lemma classify_path wildcards ma a :
  Param_In (PRef_Value (classify wildcards ma a)) = "path" ↔ nat_Name a ∈ wildcards.
Proof.
  unfold classify. destruct (decide (nat_Name a ∈ wildcards)) as [Hin | Hnin];
    match goal with
    | |- context [paramFor ?at_ ?n ?i ?r] =>
        destruct (paramFor_fields at_ n i r) as (-> & _)
    end; [done|]. split; [discriminate | done].
Qed.

(** X17: the path parameters of [paramsFromExpr] are those of the attributes
    named by a wildcard of the path, in declaration order and one for each
    such attribute: a wildcard without an attribute of its name gets no
    parameter, and a wildcard that occurs twice in the path gets one. The
    number of parameters is the number of attributes. *)
Theorem path_parameters `{External} (ma : MappedAttributeExpr) (path : string) :
  (λ p, Param_Name (PRef_Value p)) <$>
    filter (λ p, Param_In (PRef_Value p) = "path") (paramsFromExpr (Some ma) path) =
  (λ a, ElemName ma (nat_Name a)) <$>
    filter (λ a, nat_Name a ∈ ExtractHTTPWildcards path) (ma_Object ma) ∧
  length (paramsFromExpr (Some ma) path) = length (ma_Object ma).
Proof.
  rewrite paramsFromExpr_fmap, length_fmap. split; [|done].
  induction (ma_Object ma) as [|a attrs IH]; [done|].
  cbn [fmap list_fmap]. rewrite !filter_cons.
  destruct (decide (nat_Name a ∈ ExtractHTTPWildcards path)) as [Hin | Hnin].
  - rewrite decide_True by by apply classify_path.
    cbn [fmap list_fmap]. f_equal; [|apply IH].
    unfold classify. rewrite decide_True by done.
    by destruct (paramFor_fields (nat_Attribute a) (ElemName ma (nat_Name a)) "path" true)
      as (_ & -> & _).
  - rewrite decide_False by by rewrite classify_path. apply IH.
Qed.
